(** * LOB transfer parts and the generic part registry of the go-hdb
      protocol layer (driver/internal/protocol: lob.go, parts.go).

    Go values are embedded as follows.  A fixed-width integer is a [Z]
    together with its wrap-around written out ([wrap_signed]); a byte
    slice is a [list byte]; a Go [error] is an
    [option error] with [None] for [nil]; a struct is a record, declared
    in a module that carries the name of the Go type; a method that may
    panic returns an [outcome]. *)

From Stdlib Require Import ZArith String Bool List Lia.
From coqutil Require Import Byte Word.LittleEndianList.
Import ListNotations.
Local Open Scope Z_scope.

(** ** Fixed-width integers *)

(** The value of [z] as a signed integer of [w] bits. *)
Definition wrap_signed (w z : Z) : Z := (z + 2 ^ (w - 1)) mod 2 ^ w - 2 ^ (w - 1).

Definition is_uint64 (z : Z) : Prop := 0 <= z < 2 ^ 64.
Definition is_int64 (z : Z) : Prop := - 2 ^ 63 <= z < 2 ^ 63.
Definition is_int32 (z : Z) : Prop := - 2 ^ 31 <= z < 2 ^ 31.
Definition is_int8 (z : Z) : Prop := - 2 ^ 7 <= z < 2 ^ 7.

(** ** Errors, [errors.Is], panics *)

Inductive error : Type :=
| EOF
| ErrUnexpectedEOF
| ErrOther (msg : string)
| ErrWrap (msg : string) (inner : error).

Fixpoint error_eqb (a b : error) : bool :=
  match a, b with
  | EOF, EOF => true
  | ErrUnexpectedEOF, ErrUnexpectedEOF => true
  | ErrOther m, ErrOther n => String.eqb m n
  | ErrWrap m x, ErrWrap n y => String.eqb m n && error_eqb x y
  | _, _ => false
  end.

(** [errors.Is(err, target)]: [err] or an error it wraps is [target]. *)
Fixpoint errors_Is_chain (err target : error) : bool :=
  error_eqb err target ||
  match err with
  | ErrWrap _ inner => errors_Is_chain inner target
  | _ => false
  end.

Definition errors_Is (err : option error) (target : error) : bool :=
  match err with
  | None => false
  | Some e => errors_Is_chain e target
  end.

Inductive outcome (A : Type) : Type :=
| Returned (a : A)
| Panicked (msg : string).
Arguments Returned {A} a.
Arguments Panicked {A} msg.

(** ** The primitive codec *)

(** Modelled from the spec: package [encoding] (the primitive cursor codec)
    is not part of the sources at hand.  The spec describes it as an
    ordered, cursor-based get/put of signed and unsigned 8/16/32/64-bit
    integers, raw byte runs of a given length and an explicit skip/zero-pad
    of N bytes, which accumulates the first error encountered and suppresses
    further attempts; [Error] is the query for the latched error.  Integers
    are laid out least significant byte first.  A getter that fails yields
    the zero value; reading [n] bytes from a stream that holds fewer follows
    [io.ReadFull]: [EOF] when nothing was left, [ErrUnexpectedEOF] after a
    partial read. *)
Module encoding.

Module Encoder.
Record t : Type := mk {
  wr : list byte;          (* bytes written so far *)
  err : option error       (* latched error *)
}.

Definition new : t := mk [] None.

Definition write (bs : list byte) (e : t) : t :=
  match err e with
  | Some _ => e
  | None => mk (wr e ++ bs) None
  end.

Definition Uint64 (v : Z) : t -> t := write (le_split 8 v).
Definition Int64 (v : Z) : t -> t := write (le_split 8 v).
Definition Int32 (v : Z) : t -> t := write (le_split 4 v).
Definition Int8 (v : Z) : t -> t := write (le_split 1 v).
Definition Bytes (p : list byte) : t -> t := write p.
Definition Zeroes (cnt : Z) : t -> t := write (repeat Byte.x00 (Z.to_nat cnt)).
End Encoder.

Module Decoder.
Record t : Type := mk {
  rd : list byte;          (* bytes not yet consumed *)
  err : option error       (* latched error *)
}.

Definition new (input : list byte) : t := mk input None.

Definition Error (d : t) : option error := err d.

(** Read [n] bytes; on a short stream consume what is there and latch. *)
Definition readFull (n : nat) (d : t) : list byte * t :=
  match err d with
  | Some _ => ([], d)
  | None =>
      if (n <=? length (rd d))%nat
      then (firstn n (rd d), mk (skipn n (rd d)) None)
      else (rd d, mk [] (Some match rd d with
                              | [] => EOF
                              | _ :: _ => ErrUnexpectedEOF
                              end))
  end.

Definition get_unsigned (n : nat) (d : t) : Z * t :=
  let (bs, d') := readFull n d in
  match err d' with
  | Some _ => (0, d')
  | None => (le_combine bs, d')
  end.

Definition get_signed (n : nat) (d : t) : Z * t :=
  let (v, d') := get_unsigned n d in
  (wrap_signed (Z.of_nat n * 8) v, d').

Definition Uint64 : t -> Z * t := get_unsigned 8.
Definition Int64 : t -> Z * t := get_signed 8.
Definition Int32 : t -> Z * t := get_signed 4.
Definition Int8 : t -> Z * t := get_signed 1.

Definition Skip (cnt : Z) (d : t) : t := snd (readFull (Z.to_nat cnt) d).

(** [dec.Bytes(p)] fills the slice [p] in place: the result is the new
    content of [p], of the same length. *)
Definition Bytes (p : list byte) (d : t) : list byte * t :=
  let (bs, d') := readFull (length p) d in
  (bs ++ skipn (length bs) p, d').
End Decoder.

End encoding.
Import encoding.

(** ** Byte sources and [io.CopyN] *)

(** An [io.Reader] is a script of the results its successive reads give:
    a run of bytes, of which a read takes as many as its buffer holds and
    leaves the rest, or an error.  A script that is used up reports [EOF]
    forever. *)
Inductive read_result : Type :=
| Data (bs : list byte)
| Fail (e : error).

Definition Reader : Type := list read_result.

(** [io.Copy(dst, io.LimitReader(src, n))] into a [bytes.Buffer]: reads
    until the limit is used up or the source reports an error; [io.EOF]
    ends the copy without an error.  Yields the bytes appended to [dst],
    the source that is left and the error of [io.Copy]. *)
Fixpoint copyLimited (src : Reader) (n : nat) {struct src}
  : list byte * Reader * option error :=
  match n with
  | O => ([], src, None)
  | S _ =>
      match src with
      | [] => ([], [], None)
      | Data bs :: rest =>
          if (length bs <=? n)%nat
          then let '(out, src', err) := copyLimited rest (n - length bs) in
               (bs ++ out, src', err)
          else (firstn n bs, Data (skipn n bs) :: rest, None)
      | Fail e :: rest =>
          if error_eqb e EOF then ([], rest, None) else ([], rest, Some e)
      end
  end.

(** [io.CopyN(dst, src, n)]: [written == n] if and only if [err == nil]. *)
Definition CopyN (src : Reader) (n : Z) : list byte * Reader * option error :=
  let '(out, src', err) := copyLimited src (Z.to_nat n) in
  let written := Z.of_nat (length out) in
  if written =? n then (out, src', None)
  else if (written <? n) && match err with None => true | Some _ => false end
       then (out, src', Some EOF)
       else (out, src', err).

(** ** lob.go *)

Definition writeLobRequestSize : Z := 21.

(** The fixed sizes of parts.go. *)
Definition statementIDSize : Z := 8.
Definition resultsetIDSize : Z := 8.
Definition fetchsizeSize : Z := 4.
Definition readLobRequestSize : Z := 24.

(** [LobOptions] is an [int8]. *)
Definition LobOptions : Type := Z.

Definition loNullindicator : LobOptions := 0x01.
Definition loDataincluded : LobOptions := 0x02.
Definition loLastdata : LobOptions := 0x04.

Definition IsLastData (o : LobOptions) : bool := negb (Z.land o loLastdata =? 0).
Definition isNull (o : LobOptions) : bool := negb (Z.land o loNullindicator =? 0).

(** [LocatorID] is a [uint64]. *)
Definition LocatorID : Type := Z.

Module LobInDescr.
Record t : Type := mk {
  rd : Reader;
  Opt : LobOptions;
  pos : Z;
  buf : list byte            (* bytes.Buffer: its unread content *)
}.

Definition newLobInDescr (rd : Reader) : t := mk rd 0 0 [].

Definition FetchNext (chunkSize : Z) (d : t) : t * option error :=
  let d := mk (rd d) (Opt d) (pos d) [] in
  let '(out, rd', err) := CopyN (rd d) chunkSize in
  let d := mk rd' (Opt d) (pos d) (buf d ++ out) in
  let d := mk (rd d) loDataincluded (pos d) (buf d) in
  if negb (errors_Is err EOF) && negb (errors_Is err ErrUnexpectedEOF)
  then (d, err)
  else (mk (rd d) (Z.lor (Opt d) loLastdata) (pos d) (buf d), None).

Definition setPos (pos : Z) (d : t) : t := mk (rd d) (Opt d) pos (buf d).

Definition size (d : t) : Z := Z.of_nat (length (buf d)).

Definition writeFirst (d : t) (enc : Encoder.t) : Encoder.t :=
  Encoder.Bytes (buf d) enc.
End LobInDescr.

Module WriteLobDescr.
(** The descriptor holds a pointer to the [LobInDescr] it streams from,
    which it owns exclusively: the pointee is kept in the record, [None]
    for [nil]. *)
Record t : Type := mk {
  LobInDescr : option LobInDescr.t;
  ID : LocatorID;
  Opt : LobOptions;
  ofs : Z;                   (* int64 *)
  b : list byte
}.

(** [&WriteLobDescr{}] *)
Definition zero : t := mk None 0 0 0 [].

Definition FetchNext (chunkSize : Z) (d : t) : outcome (t * option error) :=
  match LobInDescr d with
  | None => Panicked "nil pointer dereference"
  | Some inner =>
      let (inner, err) := LobInDescr.FetchNext chunkSize inner in
      let d := mk (Some inner) (ID d) (Opt d) (ofs d) (b d) in
      match err with
      | Some _ => Returned (d, err)
      | None =>
          let d := mk (LobInDescr d) (ID d) (LobInDescr.Opt inner) (ofs d) (b d) in
          let d := mk (LobInDescr d) (ID d) (Opt d) (-1) (b d) in
          let d := mk (LobInDescr d) (ID d) (Opt d) (ofs d) (LobInDescr.buf inner) in
          Returned (d, None)
      end
  end.

Definition decode (d : t) (dec : Decoder.t) : outcome (t * option error * Decoder.t) :=
  let (id, dec) := Decoder.Uint64 dec in
  let (opt, dec) := Decoder.Int8 dec in
  let (ofs', dec) := Decoder.Int64 dec in
  let (size, dec) := Decoder.Int32 dec in
  if size <? 0 then Panicked "makeslice: len out of range"
  else
    let (b', dec) := Decoder.Bytes (repeat Byte.x00 (Z.to_nat size)) dec in
    Returned (mk (LobInDescr d) id opt ofs' b', None, dec).

Definition encode (d : t) (enc : Encoder.t) : option error * Encoder.t :=
  let enc := Encoder.Uint64 (ID d) enc in
  let enc := Encoder.Int8 (Opt d) enc in
  let enc := Encoder.Int64 (ofs d) enc in
  let enc := Encoder.Int32 (wrap_signed 32 (Z.of_nat (length (b d)))) enc in
  let enc := Encoder.Bytes (b d) enc in
  (None, enc).
End WriteLobDescr.

Module WriteLobRequest.
(** [Descrs] is a slice of pointers; it is modelled by the descriptors
    pointed to. *)
Record t : Type := mk { Descrs : list WriteLobDescr.t }.

Definition zero : t := mk [].

Definition size (r : t) : Z :=
  fold_left
    (fun size descr => size + (writeLobRequestSize + Z.of_nat (length (WriteLobDescr.b descr))))
    (Descrs r) 0.

Definition numArg (r : t) : Z := Z.of_nat (length (Descrs r)).

(** The loop of [decodeNumArg]: [n] descriptors are still to be decoded,
    [acc] holds the ones decoded so far.  On an early return the entries
    that were not reached (nil pointers in the source) are left out. *)
Fixpoint decodeLoop (n : nat) (acc : list WriteLobDescr.t) (dec : Decoder.t)
  : outcome (list WriteLobDescr.t * option error * Decoder.t) :=
  match n with
  | O => Returned (acc, None, dec)
  | S n' =>
      match WriteLobDescr.decode WriteLobDescr.zero dec with
      | Panicked msg => Panicked msg
      | Returned (descr, Some e, dec) => Returned (acc ++ [descr], Some e, dec)
      | Returned (descr, None, dec) => decodeLoop n' (acc ++ [descr]) dec
      end
  end.

Definition decodeNumArg (r : t) (dec : Decoder.t) (numArg : Z)
  : outcome (t * option error * Decoder.t) :=
  if numArg <? 0 then Panicked "makeslice: len out of range"
  else
    match decodeLoop (Z.to_nat numArg) [] dec with
    | Panicked msg => Panicked msg
    | Returned (descrs, err, dec) => Returned (mk descrs, err, dec)
    end.

Fixpoint encodeLoop (descrs : list WriteLobDescr.t) (enc : Encoder.t)
  : option error * Encoder.t :=
  match descrs with
  | [] => (None, enc)
  | descr :: rest =>
      match WriteLobDescr.encode descr enc with
      | (Some e, enc) => (Some e, enc)
      | (None, enc) => encodeLoop rest enc
      end
  end.

Definition encode (r : t) (enc : Encoder.t) : option error * Encoder.t :=
  encodeLoop (Descrs r) enc.
End WriteLobRequest.

(** Modelled from the spec: the helper [resizeSlice] is not part of the
    sources at hand.  A count-framed part "decodes exactly that many logical
    entries": the helper yields a slice of length [n] that keeps the leading
    elements of [s]; a negative length panics, as any Go slice expression
    does. *)
Definition resizeSlice (s : list Z) (n : Z) : outcome (list Z) :=
  if n <? 0 then Panicked "slice bounds out of range"
  else Returned (firstn (Z.to_nat n) s ++ repeat 0 (Z.to_nat n - length s)).

(** [s[i] = v] for an index within the slice. *)
Definition assign {A : Type} (i : nat) (v : A) (s : list A) : list A :=
  firstn i s ++ v :: skipn (S i) s.

Module WriteLobReply.
Record t : Type := mk { IDs : list LocatorID }.

Definition zero : t := mk [].

(** [for i := 0; i < numArg; i++ { r.IDs[i] = LocatorID(dec.Uint64()) }],
    with [k] rounds to go. *)
Fixpoint decodeLoop (k i : nat) (ids : list LocatorID) (dec : Decoder.t)
  : list LocatorID * Decoder.t :=
  match k with
  | O => (ids, dec)
  | S k' =>
      let (v, dec) := Decoder.Uint64 dec in
      decodeLoop k' (S i) (assign i v ids) dec
  end.

Definition decodeNumArg (r : t) (dec : Decoder.t) (numArg : Z)
  : outcome (t * option error * Decoder.t) :=
  match resizeSlice (IDs r) numArg with
  | Panicked msg => Panicked msg
  | Returned ids =>
      let (ids, dec) := decodeLoop (Z.to_nat numArg) 0 ids dec in
      Returned (mk ids, Decoder.Error dec, dec)
  end.
End WriteLobReply.

Module ReadLobRequest.
Record t : Type := mk {
  ID : LocatorID;
  Ofs : Z;                   (* int64 *)
  ChunkSize : Z              (* int32 *)
}.

Definition zero : t := mk 0 0 0.

(** [numArg] and [size] are declared in parts.go. *)
Definition numArg (r : t) : Z := 1.
Definition size (r : t) : Z := readLobRequestSize.

Definition decode (r : t) (dec : Decoder.t) : t * option error * Decoder.t :=
  let (id, dec) := Decoder.Uint64 dec in
  let (ofs, dec) := Decoder.Int64 dec in
  let (chunkSize, dec) := Decoder.Int32 dec in
  let dec := Decoder.Skip 4 dec in
  (mk id ofs chunkSize, None, dec).

Definition encode (r : t) (enc : Encoder.t) : option error * Encoder.t :=
  let enc := Encoder.Uint64 (ID r) enc in
  let enc := Encoder.Int64 (wrap_signed 64 (Ofs r + 1)) enc in
  let enc := Encoder.Int32 (ChunkSize r) enc in
  let enc := Encoder.Zeroes 4 enc in
  (None, enc).
End ReadLobRequest.

Module ReadLobReply.
Record t : Type := mk {
  ID : LocatorID;
  Opt : LobOptions;
  B : list byte
}.

Definition zero : t := mk 0 0 [].

(** [slices.Grow(b, size)[:size]]: panics on a negative size; the bytes
    between the length and the capacity of [b] are taken to be zero. *)
Definition growTo (b : list byte) (size : Z) : outcome (list byte) :=
  if size <? 0 then Panicked "cannot be negative"
  else Returned (firstn (Z.to_nat size) b
                 ++ repeat Byte.x00 (Z.to_nat size - length b)).

Definition decodeNumArg (r : t) (dec : Decoder.t) (numArg : Z)
  : outcome (t * option error * Decoder.t) :=
  if negb (numArg =? 1) then Panicked "numArg == 1 expected"
  else
    let (id, dec) := Decoder.Uint64 dec in
    let (opt, dec) := Decoder.Int8 dec in
    let (size, dec) := Decoder.Int32 dec in
    let dec := Decoder.Skip 3 dec in
    match growTo (B r) size with
    | Panicked msg => Panicked msg
    | Returned b =>
        let (b, dec) := Decoder.Bytes b dec in
        Returned (mk id opt b, None, dec)
    end.
End ReadLobReply.

(** ** parts.go *)

(** Modelled from the spec: the declaration of [PartKind] and the values of
    its constants are not part of the sources at hand.  "Each part carries
    exactly one discriminant, its kind (a fixed enumeration value)": the
    kinds that parts.go names are the constructors, and [PkOther] stands
    for every tag that it does not name. *)
Inductive PartKind : Type :=
| PkError
| PkAuthentication
| PkClientID
| PkClientInfo
| PkTopologyInformation
| PkCommand
| PkRowsAffected
| PkStatementID
| PkParameterMetadata
| PkParameters
| PkOutputParameters
| PkResultMetadata
| PkResultsetID
| PkResultset
| PkFetchSize
| PkReadLobRequest
| PkReadLobReply
| PkWriteLobRequest
| PkWriteLobReply
| PkClientContext
| PkConnectOptions
| PkTransactionFlags
| PkStatementContext
| PkDBConnectInfo
| PkOther (tag : Z).

Definition PartKind_eq_dec (a b : PartKind) : {a = b} + {a <> b}.
Proof. decide equality. apply Z.eq_dec. Defined.

(** The type arguments of the generic [Options] part. *)
Inductive OptionCategory : Type :=
| ClientContextOption
| ConnectOption
| transactionFlagType
| statementContextType
| DBConnectInfoType.

(** The part types of parts.go, as values of [reflect.Type]. *)
Inductive PartType : Type :=
| HdbErrors
| AuthInitRequest
| AuthInitReply
| AuthFinalRequest
| AuthFinalReply
| ClientID
| clientInfo
| topologyInformation
| Command
| RowsAffected
| StatementID
| ParameterMetadata
| InputParameters
| OutputParameters
| ResultMetadata
| ResultsetID
| Resultset
| Fetchsize
| TReadLobRequest
| TReadLobReply
| TWriteLobRequest
| TWriteLobReply
| Options (o : OptionCategory).

(** The [kind] methods of parts.go ([Options] has its own elsewhere). *)
Definition kind (pt : PartType) : option PartKind :=
  match pt with
  | HdbErrors => Some PkError
  | AuthInitRequest | AuthInitReply | AuthFinalRequest | AuthFinalReply =>
      Some PkAuthentication
  | ClientID => Some PkClientID
  | clientInfo => Some PkClientInfo
  | topologyInformation => Some PkTopologyInformation
  | Command => Some PkCommand
  | RowsAffected => Some PkRowsAffected
  | StatementID => Some PkStatementID
  | ParameterMetadata => Some PkParameterMetadata
  | InputParameters => Some PkParameters
  | OutputParameters => Some PkOutputParameters
  | ResultMetadata => Some PkResultMetadata
  | ResultsetID => Some PkResultsetID
  | Resultset => Some PkResultset
  | Fetchsize => Some PkFetchSize
  | TReadLobRequest => Some PkReadLobRequest
  | TReadLobReply => Some PkReadLobReply
  | TWriteLobRequest => Some PkWriteLobRequest
  | TWriteLobReply => Some PkWriteLobReply
  | Options _ => None
  end.

(** A part instance: the LOB parts carry their fields; a part whose struct
    is declared elsewhere is known by its type alone, and only its zero
    value is built here. *)
Inductive Part : Type :=
| PReadLobRequest (r : ReadLobRequest.t)
| PReadLobReply (r : ReadLobReply.t)
| PWriteLobRequest (r : WriteLobRequest.t)
| PWriteLobReply (r : WriteLobReply.t)
| PZeroOf (pt : PartType).

(** [reflect.New(pt).Interface()]: a pointer to a new zero value. *)
Definition reflect_New (pt : PartType) : Part :=
  match pt with
  | TReadLobRequest => PReadLobRequest ReadLobRequest.zero
  | TReadLobReply => PReadLobReply ReadLobReply.zero
  | TWriteLobRequest => PWriteLobRequest WriteLobRequest.zero
  | TWriteLobReply => PWriteLobReply WriteLobReply.zero
  | _ => PZeroOf pt
  end.

(** Every part type has the methods of [Part] on its pointer type (the
    interface checks of parts.go), so the type assertion [.(Part)] holds. *)
Definition implementsPart (pt : PartType) : bool := true.

Definition genPartTypeMap : list (PartKind * PartType) :=
  [ (PkError, HdbErrors);
    (PkClientID, ClientID);
    (PkClientInfo, clientInfo);
    (PkTopologyInformation, topologyInformation);
    (PkCommand, Command);
    (PkRowsAffected, RowsAffected);
    (PkStatementID, StatementID);
    (PkResultsetID, ResultsetID);
    (PkFetchSize, Fetchsize);
    (PkReadLobRequest, TReadLobRequest);
    (PkReadLobReply, TReadLobReply);
    (PkWriteLobReply, TWriteLobReply);
    (PkWriteLobRequest, TWriteLobRequest);
    (PkClientContext, Options ClientContextOption);
    (PkConnectOptions, Options ConnectOption);
    (PkTransactionFlags, Options transactionFlagType);
    (PkStatementContext, Options statementContextType);
    (PkDBConnectInfo, Options DBConnectInfoType) ].

(** [m[k]] on a map literal. *)
Fixpoint mapLookup {V : Type} (m : list (PartKind * V)) (k : PartKind) : option V :=
  match m with
  | [] => None
  | (k', v) :: rest => if PartKind_eq_dec k k' then Some v else mapLookup rest k
  end.

(** [nil] is [Returned None]. *)
Definition newGenPartReader (kind : PartKind) : outcome (option Part) :=
  if PartKind_eq_dec kind PkAuthentication then Returned None
  else
    match mapLookup genPartTypeMap kind with
    | None => Returned None
    | Some pt =>
        if implementsPart pt then Returned (Some (reflect_New pt))
        else Panicked "part kind does not implement part reader interface"
    end.

(** ** The chunk loop of a LOB write *)

Inductive loopEnd : Type :=
| Finished                     (* last-data was set on the chunk just fetched *)
| Failed (e : error)
| OutOfFuel.

(** Call [FetchNext chunkSize] again and again until the chunk fetched has
    last-data set; each chunk is recorded with its bytes and its options. *)
Fixpoint fetchAll (fuel : nat) (chunkSize : Z) (d : LobInDescr.t)
  : list (list byte * LobOptions) * loopEnd :=
  match fuel with
  | O => ([], OutOfFuel)
  | S fuel' =>
      match LobInDescr.FetchNext chunkSize d with
      | (_, Some e) => ([], Failed e)
      | (d, None) =>
          let chunk := (LobInDescr.buf d, LobInDescr.Opt d) in
          if IsLastData (LobInDescr.Opt d) then ([chunk], Finished)
          else let (chunks, e) := fetchAll fuel' chunkSize d in (chunk :: chunks, e)
      end
  end.

(** ** Vocabulary of the statements *)

(** The sum over the descriptors of 21 plus the length of the payload. *)
Definition descrSizes (descrs : list WriteLobDescr.t) : Z :=
  fold_right Z.add 0
    (map (fun descr => 21 + Z.of_nat (length (WriteLobDescr.b descr))) descrs).

(** The offset field of an encoded read-LOB request: the eight bytes after
    the locator id, read as an [int64]. *)
Definition wireOffset (bs : list byte) : Z :=
  wrap_signed 64 (le_combine (firstn 8 (skipn 8 bs))).

(** Modelled from the spec: the read loop that drives [ReadLobRequest] is
    not part of the sources at hand.  "Offset advances by the number of
    bytes received each round": the request that follows a reply. *)
Definition nextReadLobRequest (r : ReadLobRequest.t) (reply : ReadLobReply.t)
  : ReadLobRequest.t :=
  ReadLobRequest.mk (ReadLobRequest.ID r)
    (ReadLobRequest.Ofs r + Z.of_nat (length (ReadLobReply.B reply)))
    (ReadLobRequest.ChunkSize r).

(** [ceil (s / c)] on natural numbers. *)
Definition ceilDiv (s c : nat) : nat := ((s + c - 1) / c)%nat.

(** A source that only ever yields data, run after run; its size is the
    length of [concat runs]. *)
Definition dataSource (runs : list (list byte)) : Reader := map Data runs.

(** The bytes a source yields before its first error. *)
Fixpoint leadingData (src : Reader) : list byte :=
  match src with
  | Data bs :: rest => bs ++ leadingData rest
  | _ => []
  end.

(** [io.EOF] or [io.ErrUnexpectedEOF], as [FetchNext] tests it. *)
Definition endOfInput (err : option error) : bool :=
  errors_Is err EOF || errors_Is err ErrUnexpectedEOF.

(** The source bytes of the spec's examples. *)
Definition abcdefg : list byte :=
  [Byte.x61; Byte.x62; Byte.x63; Byte.x64; Byte.x65; Byte.x66; Byte.x67].
Definition abcde : list byte := firstn 5 abcdefg.
Definition fg : list byte := skipn 5 abcdefg.

(** ** Further code of lob.go and parts.go *)





(** The protocol writer of parts.go, with the fields its two methods here
    work on; its logger, stream, encoder and header buffers belong to
    collaborators and are left out. *)
Module writer.
Record t : Type := mk {
  protTrace : bool;
  sv : list (string * string);
  svSent : bool;
  lastWriteErr : option error
}.

Definition LastWriteErr (w : t) : option error := lastWriteErr w.

Definition lastErrorHandler (err : option error) (w : t) : t * option error :=
  match err with
  | Some _ => (mk (protTrace w) (sv w) (svSent w) err, err)
  | None => (w, err)
  end.
End writer.

(** The writer after a run of results went through [lastErrorHandler]. *)
Definition handleAll (errs : list (option error)) (w : writer.t) : writer.t :=
  fold_left (fun w err => fst (writer.lastErrorHandler err w)) errs w.

(** The most recent error of a run of results, [dflt] when there is none. *)
Fixpoint lastFailure (errs : list (option error)) (dflt : option error) : option error :=
  match errs with
  | [] => dflt
  | err :: rest =>
      lastFailure rest match err with Some _ => err | None => dflt end
  end.

(** The dynamic type of a part. *)
Definition typeOf (p : Part) : PartType :=
  match p with
  | PReadLobRequest _ => TReadLobRequest
  | PReadLobReply _ => TReadLobReply
  | PWriteLobRequest _ => TWriteLobRequest
  | PWriteLobReply _ => TWriteLobReply
  | PZeroOf pt => pt
  end.

(** The bytes of one write-LOB descriptor on the wire. *)
Definition descrWire (d : WriteLobDescr.t) : list byte :=
  le_split 8 (WriteLobDescr.ID d) ++ le_split 1 (WriteLobDescr.Opt d)
    ++ le_split 8 (WriteLobDescr.ofs d)
    ++ le_split 4 (Z.of_nat (length (WriteLobDescr.b d)))
    ++ WriteLobDescr.b d.

(** What of a descriptor goes over the wire: all but the pointer to its
    source. *)
Definition wireFields (d : WriteLobDescr.t) : WriteLobDescr.t :=
  WriteLobDescr.mk None (WriteLobDescr.ID d) (WriteLobDescr.Opt d)
    (WriteLobDescr.ofs d) (WriteLobDescr.b d).

(** The fields of a descriptor are values of their Go types, and the
    payload length fits the [int32] size field. *)
Definition wellFormedDescr (d : WriteLobDescr.t) : Prop :=
  is_uint64 (WriteLobDescr.ID d) /\ is_int8 (WriteLobDescr.Opt d) /\
  is_int64 (WriteLobDescr.ofs d) /\
  Z.of_nat (length (WriteLobDescr.b d)) < 2 ^ 31.

Definition wellFormedRequest (r : ReadLobRequest.t) : Prop :=
  is_uint64 (ReadLobRequest.ID r) /\ is_int64 (ReadLobRequest.Ofs r) /\
  is_int32 (ReadLobRequest.ChunkSize r).

(** The decoder has used up a stream that was too short. *)
Definition truncated (dec : Decoder.t) : Prop :=
  Decoder.rd dec = [] /\ endOfInput (Decoder.Error dec) = true.

(** * Properties *)

(** ** Arithmetic of fixed-width integers *)

Lemma wrap_signed_mod (w z : Z) :
  0 < w -> wrap_signed w (z mod 2 ^ w) = wrap_signed w z.
Proof.
  intros Hw. unfold wrap_signed.
  rewrite Zplus_mod_idemp_l. reflexivity.
Qed.

Lemma wrap_signed_small (w z : Z) :
  0 < w -> - 2 ^ (w - 1) <= z < 2 ^ (w - 1) -> wrap_signed w z = z.
Proof.
  intros Hw Hz. unfold wrap_signed.
  assert (Hp : 2 ^ w = 2 * 2 ^ (w - 1)).
  { rewrite <- Z.pow_succ_r by lia. f_equal. lia. }
  rewrite Z.mod_small by lia. lia.
Qed.

Lemma wrap_signed_range (w z : Z) :
  0 < w -> - 2 ^ (w - 1) <= wrap_signed w z < 2 ^ (w - 1).
Proof.
  intros Hw. unfold wrap_signed.
  assert (Hp : 2 ^ w = 2 * 2 ^ (w - 1)).
  { rewrite <- Z.pow_succ_r by lia. f_equal. lia. }
  assert (0 < 2 ^ (w - 1)) by (apply Z.pow_pos_nonneg; lia).
  pose proof (Z.mod_pos_bound (z + 2 ^ (w - 1)) (2 ^ w)). lia.
Qed.

Lemma le_split_wrap_signed (n : nat) (z : Z) :
  (0 < n)%nat -> le_split n (wrap_signed (Z.of_nat n * 8) z) = le_split n z.
Proof.
  intros Hn.
  rewrite (le_split_mod (wrap_signed _ z)), (le_split_mod z).
  f_equal. unfold wrap_signed.
  set (m := 2 ^ (Z.of_nat n * 8)).
  rewrite Zminus_mod_idemp_l.
  f_equal. lia.
Qed.

(** Settle the comparisons of the code that linear arithmetic decides. *)
Ltac settle_tests :=
  repeat match goal with
    | |- context [(?a <=? ?b)%nat] =>
        first [ rewrite (proj2 (Nat.leb_le a b)) by lia
              | rewrite (proj2 (Nat.leb_gt a b)) by lia ]
    | |- context [?a <? ?b] =>
        first [ rewrite (proj2 (Z.ltb_lt a b)) by lia
              | rewrite (proj2 (Z.ltb_ge a b)) by lia ]
    | |- context [?a =? ?b] =>
        first [ rewrite (proj2 (Z.eqb_eq a b)) by lia
              | rewrite (proj2 (Z.eqb_neq a b)) by lia ]
    end.

(** ** The codec: what is written is what is read back *)

Section Codec.

Lemma firstn_length_app {A} (xs ys : list A) : firstn (length xs) (xs ++ ys) = xs.
Proof. induction xs; simpl; congruence. Qed.

Lemma skipn_length_app {A} (xs ys : list A) : skipn (length xs) (xs ++ ys) = ys.
Proof. induction xs; simpl; congruence. Qed.

Lemma readFull_app (bs rest : list byte) :
  Decoder.readFull (length bs) (Decoder.mk (bs ++ rest) None)
  = (bs, Decoder.mk rest None).
Proof.
  unfold Decoder.readFull; simpl.
  pose proof (length_app bs rest) as Hlen. settle_tests.
  now rewrite firstn_length_app, skipn_length_app.
Qed.

Lemma get_unsigned_split (n : nat) (v : Z) (rest : list byte) :
  Decoder.get_unsigned n (Decoder.mk (le_split n v ++ rest) None)
  = (v mod 2 ^ (Z.of_nat n * 8), Decoder.mk rest None).
Proof.
  unfold Decoder.get_unsigned.
  rewrite <- (length_le_split n v) at 1.
  rewrite readFull_app. simpl. now rewrite le_combine_split.
Qed.

Lemma get_signed_split (n : nat) (v : Z) (rest : list byte) :
  (0 < n)%nat ->
  Decoder.get_signed n (Decoder.mk (le_split n v ++ rest) None)
  = (wrap_signed (Z.of_nat n * 8) v, Decoder.mk rest None).
Proof.
  intros Hn. unfold Decoder.get_signed.
  rewrite get_unsigned_split, wrap_signed_mod by lia. reflexivity.
Qed.

Lemma Uint64_split (v : Z) (rest : list byte) :
  is_uint64 v ->
  Decoder.Uint64 (Decoder.mk (le_split 8 v ++ rest) None) = (v, Decoder.mk rest None).
Proof.
  intros Hv. unfold Decoder.Uint64. rewrite get_unsigned_split.
  rewrite Z.mod_small; [reflexivity | exact Hv].
Qed.

Lemma Int64_split (v : Z) (rest : list byte) :
  is_int64 v ->
  Decoder.Int64 (Decoder.mk (le_split 8 v ++ rest) None) = (v, Decoder.mk rest None).
Proof.
  intros Hv. unfold Decoder.Int64. rewrite get_signed_split by lia.
  rewrite wrap_signed_small; [reflexivity | lia | exact Hv].
Qed.

Lemma Int32_split (v : Z) (rest : list byte) :
  is_int32 v ->
  Decoder.Int32 (Decoder.mk (le_split 4 v ++ rest) None) = (v, Decoder.mk rest None).
Proof.
  intros Hv. unfold Decoder.Int32. rewrite get_signed_split by lia.
  rewrite wrap_signed_small; [reflexivity | lia | exact Hv].
Qed.

Lemma Int8_split (v : Z) (rest : list byte) :
  is_int8 v ->
  Decoder.Int8 (Decoder.mk (le_split 1 v ++ rest) None) = (v, Decoder.mk rest None).
Proof.
  intros Hv. unfold Decoder.Int8. rewrite get_signed_split by lia.
  rewrite wrap_signed_small; [reflexivity | lia | exact Hv].
Qed.

Lemma Skip_app (bs rest : list byte) :
  Decoder.Skip (Z.of_nat (length bs)) (Decoder.mk (bs ++ rest) None)
  = Decoder.mk rest None.
Proof. unfold Decoder.Skip. now rewrite Nat2Z.id, readFull_app. Qed.

Lemma Bytes_app (p bs rest : list byte) :
  length p = length bs ->
  Decoder.Bytes p (Decoder.mk (bs ++ rest) None) = (bs, Decoder.mk rest None).
Proof.
  intros Hlen. unfold Decoder.Bytes. rewrite Hlen, readFull_app.
  rewrite <- Hlen, skipn_all, app_nil_r. reflexivity.
Qed.

Lemma firstn_le_split_app (n : nat) (v : Z) (rest : list byte) :
  firstn n (le_split n v ++ rest) = le_split n v.
Proof.
  pose proof (firstn_length_app (le_split n v) rest) as H.
  now rewrite length_le_split in H.
Qed.

Lemma skipn_le_split_app (n : nat) (v : Z) (rest : list byte) :
  skipn n (le_split n v ++ rest) = rest.
Proof.
  pose proof (skipn_length_app (le_split n v) rest) as H.
  now rewrite length_le_split in H.
Qed.

Lemma write_ok (bs out : list byte) :
  Encoder.write bs (Encoder.mk out None) = Encoder.mk (out ++ bs) None.
Proof. reflexivity. Qed.

End Codec.

(** ** LobOptions *)

Lemma land_pow2_zero (o n : Z) :
  0 <= n -> (Z.land o (2 ^ n) =? 0) = negb (Z.testbit o n).
Proof.
  intros Hn. destruct (Z.testbit o n) eqn:Hbit; simpl.
  - apply Z.eqb_neq. intros Hz.
    assert (Hb : Z.testbit (Z.land o (2 ^ n)) n = true).
    { rewrite Z.land_spec, Hbit, Z.pow2_bits_true by lia. reflexivity. }
    rewrite Hz, Z.bits_0 in Hb. discriminate.
  - apply Z.eqb_eq. apply Z.bits_inj'. intros m Hm.
    rewrite Z.land_spec, Z.bits_0, Z.pow2_bits_eqb by lia.
    destruct (Z.eqb_spec n m) as [-> | _].
    + now rewrite Hbit.
    + apply andb_false_r.
Qed.

(** C9. [LobOptions] is one byte on the wire; bit 0 is the null indicator,
    bit 1 data-included and bit 2 last-data.  For every option set [o],
    [IsLastData o] holds exactly when bit 2 of [o] is set and [isNull o]
    exactly when bit 0 is set. *)
Theorem LobOptions_bit_layout :
  loNullindicator = 2 ^ 0 /\ loDataincluded = 2 ^ 1 /\ loLastdata = 2 ^ 2 /\
  (forall (o : LobOptions) (out : list byte),
      length (Encoder.wr (Encoder.Int8 o (Encoder.mk out None)))
      = S (length out)) /\
  (forall o : LobOptions, IsLastData o = Z.testbit o 2) /\
  (forall o : LobOptions, isNull o = Z.testbit o 0) /\
  (forall o : LobOptions,
      negb (Z.land o loDataincluded =? 0) = Z.testbit o 1).
Proof.
  repeat split.
  - intros o out. unfold Encoder.Int8. rewrite write_ok. simpl.
    rewrite length_app, length_le_split. lia.
  - intros o. unfold IsLastData. change loLastdata with (2 ^ 2).
    rewrite land_pow2_zero by lia. apply negb_involutive.
  - intros o. unfold isNull. change loNullindicator with (2 ^ 0).
    rewrite land_pow2_zero by lia. apply negb_involutive.
  - intros o. change loDataincluded with (2 ^ 1).
    rewrite land_pow2_zero by lia. apply negb_involutive.
Qed.

(** ** Size contract *)

Lemma WriteLobRequest_size_from (descrs : list WriteLobDescr.t) (acc : Z) :
  fold_left
    (fun size descr =>
       size + (writeLobRequestSize + Z.of_nat (length (WriteLobDescr.b descr))))
    descrs acc
  = acc + descrSizes descrs.
Proof.
  revert acc. induction descrs as [| d ds IH]; intros acc; simpl.
  - unfold descrSizes. simpl. lia.
  - rewrite IH. unfold descrSizes, writeLobRequestSize. simpl. lia.
Qed.

Lemma WriteLobDescr_encode_ok (d : WriteLobDescr.t) (out : list byte) :
  WriteLobDescr.encode d (Encoder.mk out None)
  = (None,
     Encoder.mk
       (out ++ le_split 8 (WriteLobDescr.ID d) ++ le_split 1 (WriteLobDescr.Opt d)
            ++ le_split 8 (WriteLobDescr.ofs d)
            ++ le_split 4 (Z.of_nat (length (WriteLobDescr.b d)))
            ++ WriteLobDescr.b d)
       None).
Proof.
  unfold WriteLobDescr.encode, Encoder.Uint64, Encoder.Int8, Encoder.Int64,
    Encoder.Int32, Encoder.Bytes.
  rewrite !write_ok, (le_split_wrap_signed 4) by lia.
  now rewrite <- !app_assoc.
Qed.

Lemma WriteLobRequest_encodeLoop_length (descrs : list WriteLobDescr.t) (out : list byte) :
  exists out',
    WriteLobRequest.encodeLoop descrs (Encoder.mk out None)
    = (None, Encoder.mk (out ++ out') None)
    /\ Z.of_nat (length out') = descrSizes descrs.
Proof.
  revert out. induction descrs as [| d ds IH]; intros out.
  - exists []. simpl. now rewrite app_nil_r.
  - cbn [WriteLobRequest.encodeLoop]. rewrite WriteLobDescr_encode_ok.
    destruct (IH (out ++ le_split 8 (WriteLobDescr.ID d)
                      ++ le_split 1 (WriteLobDescr.Opt d)
                      ++ le_split 8 (WriteLobDescr.ofs d)
                      ++ le_split 4 (Z.of_nat (length (WriteLobDescr.b d)))
                      ++ WriteLobDescr.b d)) as (out' & Heq & Hlen).
    eexists. split.
    + rewrite Heq. rewrite <- app_assoc. reflexivity.
    + rewrite !length_app, !length_le_split.
      unfold descrSizes in *. cbn [map fold_right]. lia.
Qed.

Lemma ReadLobRequest_encode_ok (r : ReadLobRequest.t) (out : list byte) :
  ReadLobRequest.encode r (Encoder.mk out None)
  = (None,
     Encoder.mk
       (out ++ le_split 8 (ReadLobRequest.ID r)
            ++ le_split 8 (ReadLobRequest.Ofs r + 1)
            ++ le_split 4 (ReadLobRequest.ChunkSize r)
            ++ repeat Byte.x00 4)
       None).
Proof.
  unfold ReadLobRequest.encode, Encoder.Uint64, Encoder.Int64, Encoder.Int32,
    Encoder.Zeroes.
  rewrite !write_ok, (le_split_wrap_signed 8) by lia.
  now rewrite <- !app_assoc.
Qed.

(** C5. What [encode] writes is as long as [size] says.  For every
    [WriteLobRequest], [size] is the sum over its descriptors of 21 plus the
    length of the payload, and [encode] succeeds and appends exactly that
    many bytes; for every [ReadLobRequest], [size] is 24 and [encode]
    succeeds and appends exactly 24 bytes. *)
Theorem size_matches_encode :
  (forall (r : WriteLobRequest.t) (out : list byte),
      WriteLobRequest.size r = descrSizes (WriteLobRequest.Descrs r) /\
      exists out',
        WriteLobRequest.encode r (Encoder.mk out None)
        = (None, Encoder.mk (out ++ out') None)
        /\ Z.of_nat (length out') = WriteLobRequest.size r) /\
  (forall (r : ReadLobRequest.t) (out : list byte),
      ReadLobRequest.size r = 24 /\
      exists out',
        ReadLobRequest.encode r (Encoder.mk out None)
        = (None, Encoder.mk (out ++ out') None)
        /\ Z.of_nat (length out') = ReadLobRequest.size r).
Proof.
  split; intros r out.
  - assert (Hsize : WriteLobRequest.size r = descrSizes (WriteLobRequest.Descrs r)).
    { unfold WriteLobRequest.size. rewrite WriteLobRequest_size_from. lia. }
    split; [exact Hsize |].
    destruct (WriteLobRequest_encodeLoop_length (WriteLobRequest.Descrs r) out)
      as (out' & Heq & Hlen).
    exists out'. split; [exact Heq | congruence].
  - split; [reflexivity |].
    eexists. split; [apply ReadLobRequest_encode_ok |].
    rewrite !length_app, !length_le_split, repeat_length. reflexivity.
Qed.

(** ** Read-LOB request on the wire *)

(** C6. [ReadLobRequest.encode] writes the locator id, then the offset as
    [Ofs + 1], then the chunk size, then exactly four zero bytes.  Read back
    as an [int64], the offset field is [Ofs + 1] for every offset below the
    largest [int64]; so the request that follows a reply of [N] bytes to a
    request at offset 0 carries [N + 1] in its offset field. *)
Theorem ReadLobRequest_wire_offset
  (r : ReadLobRequest.t) (reply : ReadLobReply.t) (out : list byte)
  (Hofs : - 2 ^ 63 <= ReadLobRequest.Ofs r < 2 ^ 63 - 1)
  (Hlen : Z.of_nat (length (ReadLobReply.B reply)) < 2 ^ 63 - 1) :
  ReadLobRequest.encode r (Encoder.mk out None)
  = (None,
     Encoder.mk
       (out ++ le_split 8 (ReadLobRequest.ID r)
            ++ le_split 8 (ReadLobRequest.Ofs r + 1)
            ++ le_split 4 (ReadLobRequest.ChunkSize r)
            ++ [Byte.x00; Byte.x00; Byte.x00; Byte.x00])
       None)
  /\ wireOffset (Encoder.wr (snd (ReadLobRequest.encode r Encoder.new)))
     = ReadLobRequest.Ofs r + 1
  /\ wireOffset
       (Encoder.wr
          (snd (ReadLobRequest.encode
                  (nextReadLobRequest
                     (ReadLobRequest.mk (ReadLobRequest.ID r) 0 (ReadLobRequest.ChunkSize r))
                     reply)
                  Encoder.new)))
     = Z.of_nat (length (ReadLobReply.B reply)) + 1.
Proof.
  assert (Hwire : forall q : ReadLobRequest.t,
             - 2 ^ 63 <= ReadLobRequest.Ofs q < 2 ^ 63 - 1 ->
             wireOffset (Encoder.wr (snd (ReadLobRequest.encode q Encoder.new)))
             = ReadLobRequest.Ofs q + 1).
  { intros q Hq. unfold Encoder.new. rewrite ReadLobRequest_encode_ok.
    unfold wireOffset. cbn [snd Encoder.wr app].
    rewrite skipn_le_split_app, firstn_le_split_app, le_combine_split.
    rewrite (wrap_signed_mod 64) by lia.
    apply wrap_signed_small; lia. }
  split; [apply ReadLobRequest_encode_ok |].
  split; [apply Hwire; exact Hofs |].
  rewrite Hwire; cbn [nextReadLobRequest ReadLobRequest.Ofs]; lia.
Qed.

Lemma ReadLobRequest_wire_offset_witness :
  wireOffset
    (Encoder.wr
       (snd (ReadLobRequest.encode
               (nextReadLobRequest (ReadLobRequest.mk 7 0 4)
                  (ReadLobReply.mk 7 0 [Byte.x57; Byte.x58; Byte.x59; Byte.x5a]))
               Encoder.new)))
  = 5.
Proof.
  apply (ReadLobRequest_wire_offset (ReadLobRequest.mk 7 0 4)
           (ReadLobReply.mk 7 0 [Byte.x57; Byte.x58; Byte.x59; Byte.x5a]) []);
    simpl; lia.
Defined.

(** ** Decoding what was encoded *)

Lemma WriteLobDescr_decode_encode (d d0 : WriteLobDescr.t) (rest : list byte) :
  is_uint64 (WriteLobDescr.ID d) -> is_int8 (WriteLobDescr.Opt d) ->
  is_int64 (WriteLobDescr.ofs d) ->
  Z.of_nat (length (WriteLobDescr.b d)) < 2 ^ 31 ->
  WriteLobDescr.decode d0
    (Decoder.mk (Encoder.wr (snd (WriteLobDescr.encode d Encoder.new)) ++ rest) None)
  = Returned
      (WriteLobDescr.mk (WriteLobDescr.LobInDescr d0) (WriteLobDescr.ID d)
         (WriteLobDescr.Opt d) (WriteLobDescr.ofs d) (WriteLobDescr.b d),
       None, Decoder.mk rest None).
Proof.
  intros Hid Hopt Hofs Hlen.
  unfold Encoder.new. rewrite WriteLobDescr_encode_ok.
  cbn [snd Encoder.wr app]. rewrite <- !app_assoc.
  unfold WriteLobDescr.decode.
  rewrite Uint64_split, Int8_split, Int64_split by assumption.
  rewrite Int32_split by (unfold is_int32; lia).
  settle_tests.
  rewrite Bytes_app by (now rewrite repeat_length, Nat2Z.id).
  reflexivity.
Qed.

Lemma ReadLobRequest_decode_encode (r r0 : ReadLobRequest.t) :
  is_uint64 (ReadLobRequest.ID r) -> is_int32 (ReadLobRequest.ChunkSize r) ->
  ReadLobRequest.decode r0
    (Decoder.new (Encoder.wr (snd (ReadLobRequest.encode r Encoder.new))))
  = (ReadLobRequest.mk (ReadLobRequest.ID r)
       (wrap_signed 64 (ReadLobRequest.Ofs r + 1)) (ReadLobRequest.ChunkSize r),
     None, Decoder.mk [] None).
Proof.
  intros Hid Hcs.
  unfold Encoder.new, Decoder.new. rewrite ReadLobRequest_encode_ok.
  cbn [snd Encoder.wr app].
  unfold ReadLobRequest.decode.
  rewrite Uint64_split by assumption.
  rewrite <- (le_split_wrap_signed 8) by lia.
  rewrite Int64_split by (apply (wrap_signed_range 64); lia).
  rewrite Int32_split by assumption.
  rewrite <- (app_nil_r (repeat Byte.x00 4)).
  change 4 with (Z.of_nat (length (repeat Byte.x00 4))).
  rewrite Skip_app. reflexivity.
Qed.

(** C1, at the read-LOB request.  [encode] writes the offset as [Ofs + 1]
    and [decode] stores the offset field as it is: decoding what was encoded
    gives the locator id and the chunk size back, and the offset moved on by
    one (wrapping at the largest [int64]); it never gives the request
    itself. *)
Theorem ReadLobRequest_roundtrip_shifts_offset (r r0 : ReadLobRequest.t)
  (Hid : is_uint64 (ReadLobRequest.ID r))
  (Hofs : is_int64 (ReadLobRequest.Ofs r))
  (Hcs : is_int32 (ReadLobRequest.ChunkSize r)) :
  let decoded :=
    fst (fst (ReadLobRequest.decode r0
                (Decoder.new (Encoder.wr (snd (ReadLobRequest.encode r Encoder.new)))))) in
  ReadLobRequest.ID decoded = ReadLobRequest.ID r /\
  ReadLobRequest.ChunkSize decoded = ReadLobRequest.ChunkSize r /\
  ReadLobRequest.Ofs decoded = wrap_signed 64 (ReadLobRequest.Ofs r + 1) /\
  decoded <> r.
Proof.
  rewrite ReadLobRequest_decode_encode by assumption.
  cbn [fst ReadLobRequest.ID ReadLobRequest.ChunkSize ReadLobRequest.Ofs].
  repeat split.
  intros Heq. apply (f_equal ReadLobRequest.Ofs) in Heq.
  cbn [ReadLobRequest.Ofs] in Heq.
  unfold is_int64 in Hofs.
  destruct (Z.eq_dec (ReadLobRequest.Ofs r) (2 ^ 63 - 1)) as [Hmax | Hmax].
  - rewrite Hmax in Heq. vm_compute in Heq. discriminate.
  - rewrite wrap_signed_small in Heq; lia.
Qed.

Lemma ReadLobRequest_roundtrip_shifts_offset_witness :
  ReadLobRequest.Ofs
    (fst (fst (ReadLobRequest.decode ReadLobRequest.zero
                 (Decoder.new
                    (Encoder.wr
                       (snd (ReadLobRequest.encode (ReadLobRequest.mk 7 0 4)
                               Encoder.new)))))))
  = wrap_signed 64 (0 + 1).
Proof.
  apply (ReadLobRequest_roundtrip_shifts_offset
           (ReadLobRequest.mk 7 0 4) ReadLobRequest.zero);
    unfold is_uint64, is_int64, is_int32; simpl; lia.
Defined.

(** ** Read-LOB reply *)

Lemma growTo_length (b : list byte) (size : Z) :
  0 <= size ->
  exists p, ReadLobReply.growTo b size = Returned p /\ length p = Z.to_nat size.
Proof.
  intros Hsize. unfold ReadLobReply.growTo.
  settle_tests.
  eexists. split; [reflexivity |].
  rewrite length_app, length_firstn, repeat_length. lia.
Qed.

(** C4. With an announced count of 1, [ReadLobReply.decodeNumArg] reads one
    locator id, one options byte, the size field, skips three bytes and
    reads [size] payload bytes into the reply, leaving what follows in the
    stream; with any other count it panics. *)
Theorem ReadLobReply_decodeNumArg_one_entry
  (r : ReadLobReply.t) (dec : Decoder.t) (numArg : Z)
  (id opt : Z) (pad payload rest : list byte)
  (Hid : is_uint64 id) (Hopt : is_int8 opt)
  (Hpad : length pad = 3%nat)
  (Hlen : Z.of_nat (length payload) < 2 ^ 31) :
  ReadLobReply.decodeNumArg r
    (Decoder.new (le_split 8 id ++ le_split 1 opt
                    ++ le_split 4 (Z.of_nat (length payload))
                    ++ pad ++ payload ++ rest)) 1
  = Returned (ReadLobReply.mk id opt payload, None, Decoder.mk rest None)
  /\ (numArg <> 1 ->
      ReadLobReply.decodeNumArg r dec numArg = Panicked "numArg == 1 expected").
Proof.
  split.
  - unfold ReadLobReply.decodeNumArg, Decoder.new. cbn [Z.eqb Pos.eqb negb].
    rewrite Uint64_split, Int8_split by assumption.
    rewrite Int32_split by (unfold is_int32; lia).
    replace 3 with (Z.of_nat (length pad)) by lia.
    rewrite Skip_app.
    destruct (growTo_length (ReadLobReply.B r) (Z.of_nat (length payload)))
      as (p & -> & Hp); [lia |].
    rewrite Bytes_app by (now rewrite Hp, Nat2Z.id).
    reflexivity.
  - intros Hne. unfold ReadLobReply.decodeNumArg.
    apply Z.eqb_neq in Hne. now rewrite Hne.
Qed.

Lemma ReadLobReply_decodeNumArg_one_entry_witness :
  ReadLobReply.decodeNumArg ReadLobReply.zero
    (Decoder.new (le_split 8 7 ++ le_split 1 6
                    ++ le_split 4 (Z.of_nat (length [Byte.x51]))
                    ++ [Byte.x00; Byte.x00; Byte.x00] ++ [Byte.x51] ++ []))
    1
  = Returned (ReadLobReply.mk 7 6 [Byte.x51], None, Decoder.mk [] None)
  /\ (2 <> 1 ->
      ReadLobReply.decodeNumArg ReadLobReply.zero (Decoder.new []) 2
      = Panicked "numArg == 1 expected").
Proof.
  apply (ReadLobReply_decodeNumArg_one_entry ReadLobReply.zero (Decoder.new []) 2
           7 6 [Byte.x00; Byte.x00; Byte.x00] [Byte.x51] []);
    unfold is_uint64, is_int8; simpl; lia.
Defined.

(** ** Latched decoder errors at the decode entry points *)

Lemma WriteLobDescr_decode_returns_nil (d : WriteLobDescr.t) (dec : Decoder.t) :
  match WriteLobDescr.decode d dec with
  | Returned (_, err, _) => err = None
  | Panicked _ => True
  end.
Proof.
  unfold WriteLobDescr.decode.
  destruct (Decoder.Uint64 dec) as [id dec1].
  destruct (Decoder.Int8 dec1) as [opt dec2].
  destruct (Decoder.Int64 dec2) as [ofs dec3].
  destruct (Decoder.Int32 dec3) as [size dec4].
  destruct (size <? 0); [exact I |].
  destruct (Decoder.Bytes _ dec4). reflexivity.
Qed.

Lemma WriteLobRequest_decodeLoop_returns_nil
  (n : nat) (acc : list WriteLobDescr.t) (dec : Decoder.t) :
  match WriteLobRequest.decodeLoop n acc dec with
  | Returned (_, err, _) => err = None
  | Panicked _ => True
  end.
Proof.
  revert acc dec. induction n as [| n IH]; intros acc dec; simpl.
  - reflexivity.
  - pose proof (WriteLobDescr_decode_returns_nil WriteLobDescr.zero dec) as H.
    destruct (WriteLobDescr.decode WriteLobDescr.zero dec) as [[[descr err] dec'] | msg].
    + subst err. apply IH.
    + exact I.
Qed.

Lemma readFull_latched (n : nat) (dec : Decoder.t) (e : error) :
  Decoder.err dec = Some e -> Decoder.readFull n dec = ([], dec).
Proof. intros H. unfold Decoder.readFull. now rewrite H. Qed.

Lemma readFull_keeps_error (n : nat) (dec : Decoder.t) :
  Decoder.err dec <> None -> Decoder.err (snd (Decoder.readFull n dec)) <> None.
Proof.
  intros H. destruct (Decoder.err dec) as [e |] eqn:He; [| congruence].
  rewrite (readFull_latched n dec e He). cbn [snd]. now rewrite He.
Qed.

Lemma Uint64_keeps_error (dec : Decoder.t) :
  Decoder.err dec <> None -> Decoder.err (snd (Decoder.Uint64 dec)) <> None.
Proof.
  intros H. pose proof (readFull_keeps_error 8 dec H) as H'.
  unfold Decoder.Uint64, Decoder.get_unsigned.
  destruct (Decoder.readFull 8 dec) as [bs dec']. cbn [snd] in *.
  destruct (Decoder.err dec') eqn:E; cbn [snd]; [rewrite E; discriminate | congruence].
Qed.

Lemma Uint64_short (dec : Decoder.t) :
  (length (Decoder.rd dec) < 8)%nat -> Decoder.err (snd (Decoder.Uint64 dec)) <> None.
Proof.
  intros Hlen. unfold Decoder.Uint64, Decoder.get_unsigned, Decoder.readFull.
  destruct (Decoder.err dec) as [e |] eqn:He.
  - cbn. rewrite He. cbn. rewrite He. discriminate.
  - settle_tests. cbn. discriminate.
Qed.

Lemma WriteLobReply_decodeLoop_keeps_error
  (k i : nat) (ids : list LocatorID) (dec : Decoder.t) :
  Decoder.err dec <> None ->
  Decoder.err (snd (WriteLobReply.decodeLoop k i ids dec)) <> None.
Proof.
  revert i ids dec. induction k as [| k IH]; intros i ids dec H; simpl.
  - exact H.
  - pose proof (Uint64_keeps_error dec H) as H'.
    destruct (Decoder.Uint64 dec) as [v dec']. now apply IH.
Qed.

(** [WriteLobReply.decodeNumArg] hands the latched error to its caller:
    what it returns is the decoder's error, which is set whenever the
    decoder came with an error or the stream is too short for the first
    locator id. *)
Lemma WriteLobReply_decodeNumArg_surfaces
  (r r' : WriteLobReply.t) (dec dec' : Decoder.t) (numArg : Z) (err : option error) :
  WriteLobReply.decodeNumArg r dec numArg = Returned (r', err, dec') ->
  err = Decoder.Error dec' /\
  (Decoder.Error dec <> None -> err <> None) /\
  (0 < numArg -> (length (Decoder.rd dec) < 8)%nat -> err <> None).
Proof.
  unfold WriteLobReply.decodeNumArg, Decoder.Error.
  destruct (resizeSlice (WriteLobReply.IDs r) numArg) as [ids | msg]; [| discriminate].
  destruct (WriteLobReply.decodeLoop (Z.to_nat numArg) 0 ids dec) as [ids' dec1] eqn:Hloop.
  intros Heq. injection Heq as <- <- <-.
  split; [reflexivity |]. split.
  - intros H.
    pose proof (WriteLobReply_decodeLoop_keeps_error (Z.to_nat numArg) 0%nat ids dec H) as H'.
    now rewrite Hloop in H'.
  - intros Hpos Hshort.
    destruct (Z.to_nat numArg) as [| k] eqn:Hk; [lia |].
    simpl in Hloop. pose proof (Uint64_short dec Hshort) as H.
    destruct (Decoder.Uint64 dec) as [v dec2].
    pose proof (WriteLobReply_decodeLoop_keeps_error k 1%nat (assign 0 v ids) dec2 H) as H'.
    now rewrite Hloop in H'.
Qed.

(** C8, at the write-LOB request.  [WriteLobDescr.decode] returns [nil]
    whatever the decoder has latched, so [WriteLobRequest.decodeNumArg]
    never reports a failure: on an empty stream it returns success with one
    zero descriptor while the decoder holds [EOF]. *)
Theorem WriteLobRequest_decodeNumArg_reports_success :
  WriteLobRequest.decodeNumArg WriteLobRequest.zero (Decoder.new []) 1
  = Returned (WriteLobRequest.mk [WriteLobDescr.zero], None,
              Decoder.mk [] (Some EOF))
  /\ forall (r : WriteLobRequest.t) (dec : Decoder.t) (numArg : Z),
      match WriteLobRequest.decodeNumArg r dec numArg with
      | Returned (_, err, _) => err = None
      | Panicked _ => True
      end.
Proof.
  split; [reflexivity |].
  intros r dec numArg. unfold WriteLobRequest.decodeNumArg.
  destruct (numArg <? 0); [exact I |].
  pose proof (WriteLobRequest_decodeLoop_returns_nil (Z.to_nat numArg) [] dec) as H.
  destruct (WriteLobRequest.decodeLoop (Z.to_nat numArg) [] dec)
    as [[[descrs err] dec'] | msg]; assumption.
Qed.

(** ** The registry of generic parts *)

Lemma mapLookup_absent {V : Type} (m : list (PartKind * V)) (k : PartKind) :
  ~ In k (map fst m) -> mapLookup m k = None.
Proof.
  induction m as [| [k' v] m IH]; simpl; intros Hin; [reflexivity |].
  destruct (PartKind_eq_dec k k') as [-> | Hne].
  - exfalso. apply Hin. now left.
  - apply IH. intros H. apply Hin. now right.
Qed.

(** C7. For a kind of the registration table [newGenPartReader] returns a
    new zero value of the type registered for it; for every other kind it
    returns nil, without a panic: so for the authentication kind and for
    the kinds that depend on metadata (parameter metadata, parameters,
    output parameters, result metadata, result set). *)
Theorem newGenPartReader_registry (k : PartKind) (pt : PartType) :
  (In (k, pt) genPartTypeMap ->
   newGenPartReader k = Returned (Some (reflect_New pt))) /\
  (~ In k (map fst genPartTypeMap) -> newGenPartReader k = Returned None) /\
  (In k [PkAuthentication; PkParameterMetadata; PkParameters;
         PkOutputParameters; PkResultMetadata; PkResultset] ->
   newGenPartReader k = Returned None).
Proof.
  split; [| split].
  - intros Hin. simpl in Hin.
    repeat (destruct Hin as [Hin | Hin];
            [injection Hin as <- <-; reflexivity |]).
    contradiction.
  - intros Hout. unfold newGenPartReader.
    destruct (PartKind_eq_dec k PkAuthentication); [reflexivity |].
    now rewrite (mapLookup_absent _ _ Hout).
  - intros Hin. simpl in Hin.
    repeat (destruct Hin as [<- | Hin]; [reflexivity |]).
    contradiction.
Qed.

Lemma newGenPartReader_registry_witness :
  newGenPartReader PkReadLobReply = Returned (Some (PReadLobReply ReadLobReply.zero))
  /\ newGenPartReader (PkOther 0) = Returned None
  /\ newGenPartReader PkResultset = Returned None.
Proof.
  split; [| split].
  - apply (proj1 (newGenPartReader_registry PkReadLobReply TReadLobReply)).
    simpl. do 10 right. left. reflexivity.
  - apply (proj1 (proj2 (newGenPartReader_registry (PkOther 0) HdbErrors))).
    simpl. intros H.
    repeat (destruct H as [H | H]; [discriminate H |]). exact H.
  - apply (proj2 (proj2 (newGenPartReader_registry PkResultset HdbErrors))).
    simpl. do 5 right. left. reflexivity.
Defined.

(** ** Reading from a source *)

Lemma copyLimited_out (src : Reader) (n : nat) :
  fst (fst (copyLimited src n)) = firstn n (leadingData src).
Proof.
  revert n. induction src as [| [bs | e] rest IH]; intros [| n]; try reflexivity.
  - cbn [copyLimited leadingData].
    destruct (Nat.leb_spec (length bs) (S n)) as [Hle | Hgt].
    + specialize (IH (S n - length bs)%nat).
      destruct (copyLimited rest (S n - length bs)) as [[out src'] err].
      cbn [fst] in *. rewrite IH, firstn_app, (firstn_all2 (n:=S n) bs) by lia.
      reflexivity.
    + cbn [fst]. rewrite firstn_app.
      replace (S n - length bs)%nat with 0%nat by lia.
      now rewrite firstn_O, app_nil_r.
  - cbn [copyLimited leadingData]. now destruct (error_eqb e EOF).
Qed.

Lemma CopyN_out (src : Reader) (n : Z) :
  fst (fst (CopyN src n)) = firstn (Z.to_nat n) (leadingData src).
Proof.
  unfold CopyN. pose proof (copyLimited_out src (Z.to_nat n)) as H.
  destruct (copyLimited src (Z.to_nat n)) as [[out src'] err]. cbn [fst] in H.
  destruct (Z.of_nat (length out) =? n); [exact H |].
  destruct (_ && _); exact H.
Qed.

Lemma copyLimited_dataSource (runs : list (list byte)) (n : nat) :
  exists runs',
    copyLimited (dataSource runs) n = (firstn n (concat runs), dataSource runs', None)
    /\ concat runs' = skipn n (concat runs).
Proof.
  revert n. induction runs as [| bs runs IH]; intros [| n].
  - exists []. split; reflexivity.
  - exists []. split; reflexivity.
  - exists (bs :: runs). split; reflexivity.
  - cbn [dataSource map copyLimited concat].
    destruct (Nat.leb_spec (length bs) (S n)) as [Hle | Hgt].
    + destruct (IH (S n - length bs)%nat) as (runs' & Heq & Hcat).
      unfold dataSource in Heq. rewrite Heq.
      exists runs'. split.
      * now rewrite firstn_app, (firstn_all2 (n:=S n) bs) by lia.
      * rewrite Hcat, skipn_app, (skipn_all2 (n:=S n) bs) by lia. reflexivity.
    + exists (skipn (S n) bs :: runs). split.
      * rewrite firstn_app.
        replace (S n - length bs)%nat with 0%nat by lia.
        now rewrite firstn_O, app_nil_r.
      * cbn [concat]. rewrite skipn_app.
        replace (S n - length bs)%nat with 0%nat by lia. reflexivity.
Qed.

Lemma copyLimited_data_then (runs : list (list byte)) (tail : Reader) (n : nat) :
  (length (concat runs) < n)%nat ->
  copyLimited (dataSource runs ++ tail) n
  = let '(out, src', err) := copyLimited tail (n - length (concat runs)) in
    (concat runs ++ out, src', err).
Proof.
  revert n. induction runs as [| bs runs IH]; intros n Hlen.
  - cbn [dataSource map app concat length]. rewrite Nat.sub_0_r.
    now destruct (copyLimited tail n) as [[out src'] err].
  - cbn [concat] in Hlen. rewrite length_app in Hlen.
    destruct n as [| n]; [lia |].
    cbn [dataSource map app copyLimited concat].
    settle_tests. fold (dataSource runs). rewrite IH by lia.
    rewrite length_app.
    replace (S n - length bs - length (concat runs))%nat
      with (S n - (length bs + length (concat runs)))%nat by lia.
    destruct (copyLimited tail _) as [[out src'] err].
    now rewrite app_assoc.
Qed.

Lemma errors_Is_not_EOF (e : error) :
  errors_Is (Some e) EOF = false -> error_eqb e EOF = false.
Proof.
  cbn [errors_Is]. destruct e; cbn [errors_Is_chain]; intros H;
    apply orb_false_iff in H; tauto.
Qed.

(** C3. A [FetchNext chunkSize] that succeeds leaves in the staging buffer
    the first [chunkSize] bytes the source had to give (fewer when it had
    fewer), whatever the buffer held before; the options are data-included,
    with last-data added exactly when the copy ended with [io.EOF] or
    [io.ErrUnexpectedEOF].  After a [WriteLobDescr.FetchNext] that succeeds
    the offset is -1, and the options and the payload are those of the inner
    descriptor. *)
Theorem FetchNext_success
  (chunkSize : Z) (d d' : LobInDescr.t) (w w' : WriteLobDescr.t) :
  (LobInDescr.FetchNext chunkSize d = (d', None) ->
   LobInDescr.buf d' = firstn (Z.to_nat chunkSize) (leadingData (LobInDescr.rd d)) /\
   Z.of_nat (length (LobInDescr.buf d')) <= Z.max 0 chunkSize /\
   Z.testbit (LobInDescr.Opt d') 1 = true /\
   (LobInDescr.Opt d' = loDataincluded \/
    LobInDescr.Opt d' = Z.lor loDataincluded loLastdata) /\
   IsLastData (LobInDescr.Opt d')
   = endOfInput (snd (CopyN (LobInDescr.rd d) chunkSize)) /\
   LobInDescr.pos d' = LobInDescr.pos d) /\
  (WriteLobDescr.FetchNext chunkSize w = Returned (w', None) ->
   WriteLobDescr.ofs w' = -1 /\
   WriteLobDescr.ID w' = WriteLobDescr.ID w /\
   exists inner inner',
     WriteLobDescr.LobInDescr w = Some inner /\
     LobInDescr.FetchNext chunkSize inner = (inner', None) /\
     WriteLobDescr.LobInDescr w' = Some inner' /\
     WriteLobDescr.Opt w' = LobInDescr.Opt inner' /\
     WriteLobDescr.b w' = LobInDescr.buf inner').
Proof.
  split.
  - unfold LobInDescr.FetchNext, endOfInput.
    cbn [LobInDescr.rd LobInDescr.Opt LobInDescr.pos LobInDescr.buf app].
    pose proof (CopyN_out (LobInDescr.rd d) chunkSize) as Hout.
    destruct (CopyN (LobInDescr.rd d) chunkSize) as [[out rd'] err].
    cbn [fst snd LobInDescr.rd LobInDescr.Opt LobInDescr.pos LobInDescr.buf app] in *.
    assert (Hlen : Z.of_nat (length out) <= Z.max 0 chunkSize).
    { rewrite Hout, length_firstn. lia. }
    destruct (negb (errors_Is err EOF) && negb (errors_Is err ErrUnexpectedEOF)) eqn:Hb;
      intros Heq; injection Heq as <-.
    + subst err. cbn. repeat split; auto.
    + cbn [LobInDescr.buf LobInDescr.Opt LobInDescr.pos].
      repeat split; auto.
      change (true = errors_Is err EOF || errors_Is err ErrUnexpectedEOF).
      destruct (errors_Is err EOF), (errors_Is err ErrUnexpectedEOF);
        try reflexivity; discriminate.
  - unfold WriteLobDescr.FetchNext.
    destruct (WriteLobDescr.LobInDescr w) as [inner |]; [| discriminate].
    destruct (LobInDescr.FetchNext chunkSize inner) as [inner' [e |]] eqn:Hin;
      intros Heq; [discriminate |].
    injection Heq as <-. cbn.
    repeat split. exists inner, inner'. repeat split; auto.
Qed.

Lemma FetchNext_success_witness :
  LobInDescr.buf (LobInDescr.mk [Data fg] loDataincluded 0 abcde)
  = firstn (Z.to_nat 5) (leadingData [Data abcdefg])
  /\ WriteLobDescr.ofs
       (WriteLobDescr.mk (Some (LobInDescr.mk [Data fg] loDataincluded 0 abcde))
          9 loDataincluded (-1) abcde)
     = -1.
Proof.
  split.
  - apply (proj1 (FetchNext_success 5
                    (LobInDescr.newLobInDescr [Data abcdefg])
                    (LobInDescr.mk [Data fg] loDataincluded 0 abcde)
                    WriteLobDescr.zero WriteLobDescr.zero)).
    reflexivity.
  - apply (proj2 (FetchNext_success 5
                    (LobInDescr.newLobInDescr [Data abcdefg])
                    (LobInDescr.mk [Data fg] loDataincluded 0 abcde)
                    (WriteLobDescr.mk
                       (Some (LobInDescr.newLobInDescr [Data abcdefg])) 9 0 0 [])
                    (WriteLobDescr.mk
                       (Some (LobInDescr.mk [Data fg] loDataincluded 0 abcde))
                       9 loDataincluded (-1) abcde))).
    reflexivity.
Defined.

(** C10. When the source fails with an error that is neither [io.EOF] nor
    [io.ErrUnexpectedEOF] before [chunkSize] bytes were read, [FetchNext]
    returns that error; last-data is not set, but the options are already
    overwritten with data-included alone and the staging buffer holds the
    bytes read before the failure, whatever the descriptor held before. *)
Theorem FetchNext_failure_not_atomic
  (chunkSize : Z) (d : LobInDescr.t)
  (runs : list (list byte)) (e : error) (rest : Reader)
  (Hrd : LobInDescr.rd d = dataSource runs ++ Fail e :: rest)
  (Hlen : Z.of_nat (length (concat runs)) < chunkSize)
  (Heof : errors_Is (Some e) EOF = false)
  (Hueof : errors_Is (Some e) ErrUnexpectedEOF = false) :
  LobInDescr.FetchNext chunkSize d
  = (LobInDescr.mk rest loDataincluded (LobInDescr.pos d) (concat runs), Some e)
  /\ IsLastData loDataincluded = false.
Proof.
  split; [| reflexivity].
  unfold LobInDescr.FetchNext, CopyN.
  cbn [LobInDescr.rd LobInDescr.Opt LobInDescr.pos LobInDescr.buf app].
  rewrite Hrd, copyLimited_data_then by lia.
  destruct (Z.to_nat chunkSize - length (concat runs))%nat as [| k] eqn:Hk; [lia |].
  cbn [copyLimited]. rewrite (errors_Is_not_EOF e Heof).
  rewrite app_nil_r.
  settle_tests.
  rewrite andb_false_r, Heof, Hueof. reflexivity.
Qed.

Lemma FetchNext_failure_not_atomic_witness :
  LobInDescr.FetchNext 5
    (LobInDescr.mk [Data fg; Fail (ErrOther "connection reset"); Data abcde]
       (Z.lor loDataincluded loLastdata) 0 abcde)
  = (LobInDescr.mk [Data abcde] loDataincluded 0 fg,
     Some (ErrOther "connection reset"))
  /\ IsLastData loDataincluded = false.
Proof.
  apply (FetchNext_failure_not_atomic 5
           (LobInDescr.mk [Data fg; Fail (ErrOther "connection reset"); Data abcde]
              (Z.lor loDataincluded loLastdata) 0 abcde)
           [fg] (ErrOther "connection reset") [Data abcde]);
    [reflexivity | simpl; lia | reflexivity | reflexivity].
Defined.

(** ** The chunks of a LOB write *)

Lemma FetchNext_dataSource (runs : list (list byte)) (c : nat) (d : LobInDescr.t) :
  (0 < c)%nat -> LobInDescr.rd d = dataSource runs ->
  exists runs',
    LobInDescr.FetchNext (Z.of_nat c) d
    = (LobInDescr.mk (dataSource runs')
         (if (c <=? length (concat runs))%nat then loDataincluded
          else Z.lor loDataincluded loLastdata)
         (LobInDescr.pos d) (firstn c (concat runs)),
       None)
    /\ concat runs' = skipn c (concat runs).
Proof.
  intros Hc Hrd.
  destruct (copyLimited_dataSource runs c) as (runs' & Hcopy & Hcat).
  exists runs'. split; [| exact Hcat].
  unfold LobInDescr.FetchNext, CopyN.
  cbn [LobInDescr.rd LobInDescr.Opt LobInDescr.pos LobInDescr.buf app].
  rewrite Hrd, Nat2Z.id, Hcopy, length_firstn.
  destruct (Nat.leb_spec c (length (concat runs))) as [Hle | Hgt].
  - settle_tests. reflexivity.
  - settle_tests. reflexivity.
Qed.

Lemma div_step (s c : nat) :
  (0 < c)%nat -> (c <= s)%nat ->
  (s / c = S ((s - c) / c) /\ (s - c) mod c = s mod c)%nat.
Proof.
  intros Hc Hle.
  replace s with ((s - c) + 1 * c)%nat at 1 4 by lia.
  rewrite Nat.div_add, Nat.Div0.mod_add by lia. lia.
Qed.

Lemma ceilDiv_inexact (s c : nat) :
  (0 < c)%nat -> (s mod c <> 0)%nat -> (ceilDiv s c = s / c + 1)%nat.
Proof.
  intros Hc Hr. unfold ceilDiv.
  pose proof (Nat.div_mod_eq s c) as Hs.
  pose proof (Nat.mod_upper_bound s c ltac:(lia)) as Hb.
  symmetry. apply (Nat.div_unique _ _ _ (s mod c - 1)); lia.
Qed.

Lemma ceilDiv_exact (s c : nat) :
  (0 < c)%nat -> (s mod c = 0)%nat -> (ceilDiv s c = s / c)%nat.
Proof.
  intros Hc Hr. unfold ceilDiv.
  pose proof (Nat.div_mod_eq s c) as Hs.
  symmetry. apply (Nat.div_unique _ _ _ (c - 1)); lia.
Qed.

Lemma fetchAll_dataSource (fuel c : nat) :
  (0 < c)%nat ->
  forall (runs : list (list byte)) (d : LobInDescr.t),
    LobInDescr.rd d = dataSource runs ->
    (length (concat runs) / c < fuel)%nat ->
    exists chunks,
      fetchAll fuel (Z.of_nat c) d = (chunks, Finished)
      /\ concat (map fst chunks) = concat runs
      /\ map (fun ch => length (fst ch)) chunks
         = repeat c (length (concat runs) / c) ++ [(length (concat runs) mod c)%nat]
      /\ map (fun ch => IsLastData (snd ch)) chunks
         = repeat false (length (concat runs) / c) ++ [true].
Proof.
  intros Hc. induction fuel as [| fuel IH]; intros runs d Hrd Hfuel; [lia |].
  destruct (FetchNext_dataSource runs c d Hc Hrd) as (runs' & Hfetch & Hcat).
  cbn [fetchAll]. rewrite Hfetch.
  cbn [LobInDescr.buf LobInDescr.Opt].
  destruct (Nat.leb_spec c (length (concat runs))) as [Hle | Hgt].
  - destruct (div_step (length (concat runs)) c Hc Hle) as [Hdiv Hmod].
    assert (Hlen' : length (concat runs') = (length (concat runs) - c)%nat)
      by (now rewrite Hcat, length_skipn).
    destruct (IH runs' (LobInDescr.mk (dataSource runs') loDataincluded
                          (LobInDescr.pos d) (firstn c (concat runs))))
      as (chunks & Hall & Hbytes & Hlens & Hflags);
      [reflexivity | rewrite Hlen'; lia |].
    change (IsLastData loDataincluded) with false. cbv iota.
    rewrite Hall. eexists. split; [reflexivity |].
    cbn [map fst snd concat].
    rewrite Hbytes, Hlens, Hflags, Hlen', Hcat, Hmod, Hdiv, firstn_skipn.
    rewrite length_firstn, Nat.min_l by lia.
    repeat split.
  - change (IsLastData (Z.lor loDataincluded loLastdata)) with true. cbv iota.
    eexists. split; [reflexivity |].
    cbn [map fst snd concat].
    rewrite Nat.div_small, Nat.mod_small, firstn_all2, app_nil_r by lia.
    repeat split.
Qed.

(** C2, as the code has it.  A source of [s] bytes fetched in chunks of
    [c > 0] bytes gives [s / c] full chunks without last-data and then one
    chunk of [s mod c] bytes with last-data; the chunks together are the
    source.  That is [ceil (s / c)] chunks when [c] does not divide [s], one
    empty chunk when [s = 0], and one chunk more than [ceil (s / c)], the
    last of them empty, when [c] divides [s > 0]. *)
Theorem fetchAll_chunk_count
  (runs : list (list byte)) (c fuel : nat) (d : LobInDescr.t)
  (Hc : (0 < c)%nat)
  (Hrd : LobInDescr.rd d = dataSource runs)
  (Hfuel : (length (concat runs) / c < fuel)%nat) :
  exists chunks,
    fetchAll fuel (Z.of_nat c) d = (chunks, Finished)
    /\ length chunks = (length (concat runs) / c + 1)%nat
    /\ concat (map fst chunks) = concat runs
    /\ map (fun ch => length (fst ch)) chunks
       = repeat c (length (concat runs) / c) ++ [(length (concat runs) mod c)%nat]
    /\ map (fun ch => IsLastData (snd ch)) chunks
       = repeat false (length (concat runs) / c) ++ [true]
    /\ ((length (concat runs) mod c <> 0)%nat ->
        length chunks = ceilDiv (length (concat runs)) c)
    /\ (length (concat runs) = 0%nat ->
        chunks = [([], Z.lor loDataincluded loLastdata)])
    /\ ((0 < length (concat runs))%nat -> (length (concat runs) mod c = 0)%nat ->
        length chunks = (ceilDiv (length (concat runs)) c + 1)%nat).
Proof.
  destruct (fetchAll_dataSource fuel c Hc runs d Hrd Hfuel)
    as (chunks & Hall & Hbytes & Hlens & Hflags).
  assert (Hcount : length chunks = (length (concat runs) / c + 1)%nat).
  { rewrite <- (length_map (fun ch => IsLastData (snd ch))), Hflags.
    now rewrite length_app, repeat_length. }
  exists chunks. repeat split; try assumption.
  - intros Hr. now rewrite ceilDiv_inexact.
  - intros Hzero.
    destruct (FetchNext_dataSource runs c d Hc Hrd) as (runs' & Hfetch & _).
    destruct fuel as [| fuel]; [lia |].
    cbn [fetchAll] in Hall. rewrite Hfetch in Hall.
    cbn [LobInDescr.buf LobInDescr.Opt] in Hall.
    rewrite (proj2 (Nat.leb_gt c (length (concat runs)))) in Hall by lia.
    change (IsLastData (Z.lor loDataincluded loLastdata)) with true in Hall.
    cbv iota in Hall. injection Hall as <-.
    apply length_zero_iff_nil in Hzero. now rewrite Hzero, firstn_nil.
  - intros Hpos Hr. now rewrite ceilDiv_exact.
Qed.

Lemma fetchAll_chunk_count_witness :
  exists chunks,
    fetchAll 2 (Z.of_nat 5) (LobInDescr.newLobInDescr [Data abcdefg])
    = (chunks, Finished)
    /\ length chunks = (length (concat [abcdefg]) / 5 + 1)%nat.
Proof.
  destruct (fetchAll_chunk_count [abcdefg] 5 2
              (LobInDescr.newLobInDescr [Data abcdefg]))
    as (chunks & Hall & Hcount & _);
    [lia | reflexivity | simpl; lia |].
  exists chunks. split; assumption.
Defined.

(** C2, as stated, fails when the chunk size divides the size of the
    source: five bytes in chunks of five come as two chunks, the five bytes
    without last-data and an empty chunk with last-data, and
    [ceil (5 / 5)] is 1. *)
Lemma fetchAll_even_division_counterexample :
  fetchAll 3 5 (LobInDescr.newLobInDescr [Data abcde])
  = ([(abcde, loDataincluded); ([], Z.lor loDataincluded loLastdata)], Finished)
  /\ length (fst (fetchAll 3 5 (LobInDescr.newLobInDescr [Data abcde])))
     <> ceilDiv (length abcde) 5.
Proof.
  split; [reflexivity |]. vm_compute. discriminate.
Qed.

(** * Further properties of the code *)

(** ** Write-LOB request: wire format and round trip *)

Lemma WriteLobDescr_encode_wire (d : WriteLobDescr.t) (out : list byte) :
  WriteLobDescr.encode d (Encoder.mk out None)
  = (None, Encoder.mk (out ++ descrWire d) None).
Proof. apply WriteLobDescr_encode_ok. Qed.

Lemma WriteLobRequest_encodeLoop_wire (descrs : list WriteLobDescr.t) (out : list byte) :
  WriteLobRequest.encodeLoop descrs (Encoder.mk out None)
  = (None, Encoder.mk (out ++ concat (map descrWire descrs)) None).
Proof.
  revert out. induction descrs as [| d ds IH]; intros out; cbn [WriteLobRequest.encodeLoop].
  - cbn. now rewrite app_nil_r.
  - rewrite WriteLobDescr_encode_wire, IH. cbn [map concat].
    now rewrite app_assoc.
Qed.

Lemma WriteLobDescr_decode_wire (d d0 : WriteLobDescr.t) (rest : list byte) :
  wellFormedDescr d ->
  WriteLobDescr.decode d0 (Decoder.mk (descrWire d ++ rest) None)
  = Returned
      (WriteLobDescr.mk (WriteLobDescr.LobInDescr d0) (WriteLobDescr.ID d)
         (WriteLobDescr.Opt d) (WriteLobDescr.ofs d) (WriteLobDescr.b d),
       None, Decoder.mk rest None).
Proof.
  intros (Hid & Hopt & Hofs & Hlen).
  pose proof (WriteLobDescr_decode_encode d d0 rest Hid Hopt Hofs Hlen) as H.
  unfold Encoder.new in H. rewrite WriteLobDescr_encode_wire in H. exact H.
Qed.

Lemma WriteLobRequest_decodeLoop_wire
  (ds acc : list WriteLobDescr.t) (rest : list byte) :
  Forall wellFormedDescr ds ->
  WriteLobRequest.decodeLoop (length ds) acc
    (Decoder.mk (concat (map descrWire ds) ++ rest) None)
  = Returned (acc ++ map wireFields ds, None, Decoder.mk rest None).
Proof.
  intros Hwf. revert acc.
  induction Hwf as [| d ds Hd _ IH]; intros acc; cbn [length map concat WriteLobRequest.decodeLoop].
  - now rewrite app_nil_r.
  - rewrite <- app_assoc, WriteLobDescr_decode_wire by exact Hd.
    rewrite IH, <- app_assoc. reflexivity.
Qed.

(** X1. Decoding the encoding of a write-LOB request with its own argument
    count gives back every descriptor's locator id, options, offset and
    payload, in order, and leaves what follows in the stream; only the
    pointers to the sources are not carried over. *)
Theorem WriteLobRequest_roundtrip
  (r r0 : WriteLobRequest.t) (rest : list byte)
  (Hwf : Forall wellFormedDescr (WriteLobRequest.Descrs r)) :
  WriteLobRequest.decodeNumArg r0
    (Decoder.mk (Encoder.wr (snd (WriteLobRequest.encode r Encoder.new)) ++ rest) None)
    (WriteLobRequest.numArg r)
  = Returned (WriteLobRequest.mk (map wireFields (WriteLobRequest.Descrs r)),
              None, Decoder.mk rest None).
Proof.
  unfold WriteLobRequest.encode, Encoder.new.
  rewrite WriteLobRequest_encodeLoop_wire. cbn [snd Encoder.wr app].
  unfold WriteLobRequest.decodeNumArg, WriteLobRequest.numArg.
  settle_tests. rewrite Nat2Z.id, WriteLobRequest_decodeLoop_wire by exact Hwf.
  reflexivity.
Qed.

Lemma WriteLobRequest_roundtrip_witness :
  WriteLobRequest.decodeNumArg WriteLobRequest.zero
    (Decoder.mk
       (Encoder.wr
          (snd (WriteLobRequest.encode
                  (WriteLobRequest.mk
                     [WriteLobDescr.mk None 9 2 (-1) abcde;
                      WriteLobDescr.mk None 11 6 (-1) []])
                  Encoder.new)) ++ fg)
       None)
    2
  = Returned (WriteLobRequest.mk
                [WriteLobDescr.mk None 9 2 (-1) abcde;
                 WriteLobDescr.mk None 11 6 (-1) []],
              None, Decoder.mk fg None).
Proof.
  apply (WriteLobRequest_roundtrip
           (WriteLobRequest.mk
              [WriteLobDescr.mk None 9 2 (-1) abcde;
               WriteLobDescr.mk None 11 6 (-1) []])
           WriteLobRequest.zero fg).
  repeat constructor; unfold is_uint64, is_int8, is_int64; simpl; lia.
Defined.

Lemma WriteLobRequest_decodeLoop_count
  (n : nat) (acc descrs : list WriteLobDescr.t) (dec dec' : Decoder.t)
  (err : option error) :
  WriteLobRequest.decodeLoop n acc dec = Returned (descrs, err, dec') ->
  length descrs = (length acc + n)%nat.
Proof.
  revert acc dec. induction n as [| n IH]; intros acc dec; cbn [WriteLobRequest.decodeLoop].
  - intros H. injection H as <- _ _. lia.
  - pose proof (WriteLobDescr_decode_returns_nil WriteLobDescr.zero dec) as Hnil.
    destruct (WriteLobDescr.decode WriteLobDescr.zero dec)
      as [[[descr e] dec1] | msg]; [| discriminate].
    subst e. intros H. apply IH in H. rewrite length_app in H. simpl in H. lia.
Qed.

(** X2. [WriteLobRequest.decodeNumArg] panics on a negative count; when it
    returns, the count was not negative and the request holds exactly
    [numArg] descriptors, whatever the stream held and whatever the request
    held before. *)
Theorem WriteLobRequest_decodeNumArg_count
  (r r' : WriteLobRequest.t) (dec dec' : Decoder.t) (numArg : Z)
  (err : option error) :
  (numArg < 0 ->
   WriteLobRequest.decodeNumArg r dec numArg = Panicked "makeslice: len out of range") /\
  (WriteLobRequest.decodeNumArg r dec numArg = Returned (r', err, dec') ->
   0 <= numArg /\ WriteLobRequest.numArg r' = numArg).
Proof.
  unfold WriteLobRequest.decodeNumArg, WriteLobRequest.numArg. split.
  - intros Hneg. now settle_tests.
  - destruct (Z.ltb_spec numArg 0) as [Hneg | Hpos]; [discriminate |].
    destruct (WriteLobRequest.decodeLoop (Z.to_nat numArg) [] dec)
      as [[[descrs e] dec1] | msg] eqn:Hloop; [| discriminate].
    intros H. injection H as <- _ _.
    apply WriteLobRequest_decodeLoop_count in Hloop.
    cbn [WriteLobRequest.Descrs]. simpl in Hloop. lia.
Qed.

Lemma WriteLobRequest_decodeNumArg_count_witness :
  WriteLobRequest.decodeNumArg WriteLobRequest.zero (Decoder.new abcde) (-1)
  = Panicked "makeslice: len out of range"
  /\ WriteLobRequest.numArg
       (WriteLobRequest.mk [WriteLobDescr.zero; WriteLobDescr.zero]) = 2.
Proof.
  split.
  - apply (proj1 (WriteLobRequest_decodeNumArg_count WriteLobRequest.zero
                    WriteLobRequest.zero (Decoder.new abcde) (Decoder.new []) (-1) None)).
    lia.
  - apply (proj2 (WriteLobRequest_decodeNumArg_count WriteLobRequest.zero
                    (WriteLobRequest.mk [WriteLobDescr.zero; WriteLobDescr.zero])
                    (Decoder.new []) (Decoder.mk [] (Some EOF)) 2 None)).
    reflexivity.
Defined.

(** ** The decoder on streams that are long enough, and on short ones *)

Lemma readFull_enough (n : nat) (input : list byte) :
  (n <= length input)%nat ->
  Decoder.readFull n (Decoder.mk input None)
  = (firstn n input, Decoder.mk (skipn n input) None).
Proof. intros Hn. unfold Decoder.readFull. cbn. now settle_tests. Qed.

Lemma readFull_short (n : nat) (input : list byte) :
  (length input < n)%nat ->
  Decoder.readFull n (Decoder.mk input None)
  = (input, Decoder.mk [] (Some match input with
                                | [] => EOF
                                | _ :: _ => ErrUnexpectedEOF
                                end)).
Proof. intros Hn. unfold Decoder.readFull. cbn. now settle_tests. Qed.

Lemma get_unsigned_state (n : nat) (dec : Decoder.t) :
  snd (Decoder.get_unsigned n dec) = snd (Decoder.readFull n dec).
Proof.
  unfold Decoder.get_unsigned. destruct (Decoder.readFull n dec) as [bs dec'].
  now destruct (Decoder.err dec').
Qed.

Lemma get_signed_state (n : nat) (dec : Decoder.t) :
  snd (Decoder.get_signed n dec) = snd (Decoder.readFull n dec).
Proof.
  unfold Decoder.get_signed. rewrite <- get_unsigned_state.
  now destruct (Decoder.get_unsigned n dec).
Qed.

(** The decoder after [n] bytes were asked for. *)
Lemma readFull_state (n : nat) (dec : Decoder.t) :
  snd (Decoder.readFull n dec)
  = match Decoder.err dec with
    | Some _ => dec
    | None =>
        if (n <=? length (Decoder.rd dec))%nat
        then Decoder.mk (skipn n (Decoder.rd dec)) None
        else Decoder.mk [] (Some match Decoder.rd dec with
                                 | [] => EOF
                                 | _ :: _ => ErrUnexpectedEOF
                                 end)
    end.
Proof.
  unfold Decoder.readFull. destruct (Decoder.err dec); [reflexivity |].
  now destruct (n <=? length (Decoder.rd dec))%nat.
Qed.

Lemma Uint64_enough (input : list byte) :
  (8 <= length input)%nat ->
  snd (Decoder.Uint64 (Decoder.mk input None)) = Decoder.mk (skipn 8 input) None.
Proof.
  intros Hn. unfold Decoder.Uint64.
  now rewrite get_unsigned_state, readFull_enough.
Qed.

(** ** Write-LOB reply *)

Lemma assign_app {A : Type} (pre : list A) (v old : A) (post : list A) :
  assign (length pre) v (pre ++ old :: post) = pre ++ v :: post.
Proof.
  unfold assign. rewrite firstn_length_app.
  change (S (length pre)) with (1 + length pre)%nat.
  rewrite <- skipn_skipn, skipn_length_app. reflexivity.
Qed.

Lemma assign_length {A : Type} (i : nat) (v : A) (s : list A) :
  (i < length s)%nat -> length (assign i v s) = length s.
Proof.
  intros Hi. unfold assign.
  rewrite length_app, length_firstn. cbn [length]. rewrite length_skipn. lia.
Qed.

Lemma resizeSlice_length (s : list Z) (n : Z) :
  0 <= n ->
  exists s', resizeSlice s n = Returned s' /\ length s' = Z.to_nat n.
Proof.
  intros Hn. unfold resizeSlice. settle_tests.
  eexists. split; [reflexivity |].
  rewrite length_app, length_firstn, repeat_length. lia.
Qed.

Lemma WriteLobReply_decodeLoop_read
  (vs : list Z) (pre old : list LocatorID) (rest : list byte) :
  Forall is_uint64 vs -> length old = length vs ->
  WriteLobReply.decodeLoop (length vs) (length pre) (pre ++ old)
    (Decoder.mk (concat (map (le_split 8) vs) ++ rest) None)
  = (pre ++ vs, Decoder.mk rest None).
Proof.
  intros Hvs. revert pre old.
  induction Hvs as [| v vs Hv _ IH]; intros pre old Hlen.
  - destruct old; [| discriminate]. reflexivity.
  - destruct old as [| o old]; [discriminate |].
    cbn [length map concat WriteLobReply.decodeLoop].
    rewrite <- app_assoc, Uint64_split by exact Hv.
    rewrite assign_app.
    specialize (IH (pre ++ [v]) old).
    rewrite length_app, Nat.add_1_r, <- !app_assoc in IH. cbn [app length] in IH.
    apply IH. simpl in Hlen. lia.
Qed.

(** X3. From a stream that starts with [n] locator ids of eight bytes each,
    [WriteLobReply.decodeNumArg] with count [n] reads exactly these ids, in
    order, in place of whatever ids the reply held before, reports no error
    and leaves what follows in the stream. *)
Theorem WriteLobReply_decodeNumArg_reads_ids
  (r : WriteLobReply.t) (ids : list LocatorID) (rest : list byte)
  (Hids : Forall is_uint64 ids) :
  WriteLobReply.decodeNumArg r
    (Decoder.new (concat (map (le_split 8) ids) ++ rest))
    (Z.of_nat (length ids))
  = Returned (WriteLobReply.mk ids, None, Decoder.mk rest None).
Proof.
  unfold WriteLobReply.decodeNumArg, Decoder.new.
  destruct (resizeSlice_length (WriteLobReply.IDs r) (Z.of_nat (length ids)))
    as (s' & -> & Hlen); [lia |].
  rewrite Nat2Z.id in Hlen. rewrite Nat2Z.id.
  pose proof (WriteLobReply_decodeLoop_read ids [] s' rest Hids Hlen) as H.
  cbn [length app] in H. unfold LocatorID in *. rewrite H. reflexivity.
Qed.

Lemma WriteLobReply_decodeNumArg_reads_ids_witness :
  WriteLobReply.decodeNumArg (WriteLobReply.mk [5; 6; 7])
    (Decoder.new (concat (map (le_split 8) [9; 11]) ++ fg))
    (Z.of_nat (length [9; 11]))
  = Returned (WriteLobReply.mk [9; 11], None, Decoder.mk fg None).
Proof.
  apply (WriteLobReply_decodeNumArg_reads_ids (WriteLobReply.mk [5; 6; 7]) [9; 11] fg).
  repeat constructor; unfold is_uint64; lia.
Defined.

Lemma WriteLobReply_decodeLoop_length
  (k i : nat) (ids : list LocatorID) (dec : Decoder.t) :
  (i + k <= length ids)%nat ->
  length (fst (WriteLobReply.decodeLoop k i ids dec)) = length ids.
Proof.
  revert i ids dec. induction k as [| k IH]; intros i ids dec Hik;
    cbn [WriteLobReply.decodeLoop]; [reflexivity |].
  destruct (Decoder.Uint64 dec) as [v dec1].
  rewrite IH; rewrite assign_length; lia.
Qed.

Lemma WriteLobReply_decodeLoop_short
  (k i : nat) (ids : list LocatorID) (input : list byte) :
  (length input < 8 * k)%nat ->
  Decoder.err (snd (WriteLobReply.decodeLoop k i ids (Decoder.mk input None))) <> None.
Proof.
  revert i ids input. induction k as [| k IH]; intros i ids input Hlen; [lia |].
  cbn [WriteLobReply.decodeLoop].
  destruct (Nat.lt_ge_cases (length input) 8) as [Hshort | Henough].
  - pose proof (Uint64_short (Decoder.mk input None) Hshort) as Herr.
    destruct (Decoder.Uint64 (Decoder.mk input None)) as [v dec1].
    now apply WriteLobReply_decodeLoop_keeps_error.
  - pose proof (Uint64_enough input Henough) as Hst.
    destruct (Decoder.Uint64 (Decoder.mk input None)) as [v dec1].
    cbn [snd] in Hst. subst dec1. apply IH. rewrite length_skipn. lia.
Qed.

(** X4. [WriteLobReply.decodeNumArg] panics on a negative count.  When it
    returns, the reply holds exactly [numArg] ids and the error returned is
    the one the decoder has latched; it is an error whenever the decoder
    came with one, or the stream is shorter than eight bytes for each id. *)
Theorem WriteLobReply_decodeNumArg_count_and_error
  (r r' : WriteLobReply.t) (dec dec' : Decoder.t) (numArg : Z)
  (err : option error) :
  (numArg < 0 ->
   WriteLobReply.decodeNumArg r dec numArg = Panicked "slice bounds out of range") /\
  (WriteLobReply.decodeNumArg r dec numArg = Returned (r', err, dec') ->
   Z.of_nat (length (WriteLobReply.IDs r')) = numArg /\
   err = Decoder.Error dec' /\
   (Decoder.Error dec <> None -> err <> None) /\
   (Decoder.Error dec = None ->
    Z.of_nat (length (Decoder.rd dec)) < 8 * numArg -> err <> None)).
Proof.
  unfold WriteLobReply.decodeNumArg. split.
  - intros Hneg. unfold resizeSlice. now settle_tests.
  - destruct (Z.ltb_spec numArg 0) as [Hneg | Hpos].
    { unfold resizeSlice. settle_tests. discriminate. }
    destruct (resizeSlice_length (WriteLobReply.IDs r) numArg Hpos) as (s' & -> & Hlen).
    destruct (WriteLobReply.decodeLoop (Z.to_nat numArg) 0 s' dec) as [ids dec1] eqn:Hloop.
    intros H. injection H as <- <- <-. cbn [WriteLobReply.IDs].
    unfold LocatorID in *. repeat split.
    + pose proof (WriteLobReply_decodeLoop_length (Z.to_nat numArg) 0 s' dec) as Hl.
      rewrite Hloop in Hl. cbn [fst] in Hl. unfold LocatorID in *.
      specialize (Hl ltac:(lia)). lia.
    + intros Herr.
      pose proof (WriteLobReply_decodeLoop_keeps_error (Z.to_nat numArg) 0 s' dec Herr) as H.
      now rewrite Hloop in H.
    + intros Hnone Hshort. destruct dec as [input e].
      unfold Decoder.Error in Hnone. cbn [Decoder.rd Decoder.err] in Hnone, Hshort. subst e.
      pose proof (WriteLobReply_decodeLoop_short (Z.to_nat numArg) 0 s' input) as H.
      rewrite Hloop in H. apply H. lia.
Qed.

Lemma WriteLobReply_decodeNumArg_count_and_error_witness :
  WriteLobReply.decodeNumArg WriteLobReply.zero (Decoder.new abcde) (-1)
  = Panicked "slice bounds out of range"
  /\ Some ErrUnexpectedEOF <> None.
Proof.
  split.
  - apply (proj1 (WriteLobReply_decodeNumArg_count_and_error WriteLobReply.zero
                    WriteLobReply.zero (Decoder.new abcde) (Decoder.new []) (-1) None)).
    lia.
  - apply (proj2 (WriteLobReply_decodeNumArg_count_and_error WriteLobReply.zero
                    (WriteLobReply.mk [0]) (Decoder.new abcde)
                    (Decoder.mk [] (Some ErrUnexpectedEOF)) 1 (Some ErrUnexpectedEOF))).
    + reflexivity.
    + reflexivity.
    + simpl. lia.
Defined.

(** ** Read-LOB request: what [decode] consumes *)

Lemma ReadLobRequest_decode_state (r : ReadLobRequest.t) (dec : Decoder.t) :
  snd (ReadLobRequest.decode r dec)
  = snd (Decoder.readFull 4
           (snd (Decoder.readFull 4
                   (snd (Decoder.readFull 8 (snd (Decoder.readFull 8 dec))))))).
Proof.
  unfold ReadLobRequest.decode, Decoder.Uint64, Decoder.Int64, Decoder.Int32, Decoder.Skip.
  rewrite <- (get_unsigned_state 8 dec).
  destruct (Decoder.get_unsigned 8 dec) as [id dec1]. cbn [snd].
  rewrite <- (get_signed_state 8 dec1).
  destruct (Decoder.get_signed 8 dec1) as [ofs dec2]. cbn [snd].
  rewrite <- (get_signed_state 4 dec2).
  destruct (Decoder.get_signed 4 dec2) as [cs dec3]. reflexivity.
Qed.

Lemma readFull_truncates (n : nat) (input : list byte) :
  (length input < n)%nat ->
  truncated (snd (Decoder.readFull n (Decoder.mk input None))).
Proof.
  intros Hlen. rewrite readFull_short by exact Hlen.
  split; [reflexivity |]. now destruct input.
Qed.

Lemma readFull_truncated_stays (n : nat) (dec : Decoder.t) :
  truncated dec -> truncated (snd (Decoder.readFull n dec)).
Proof.
  intros [Hrd Herr]. unfold Decoder.readFull, Decoder.Error in *.
  destruct (Decoder.err dec) as [e |] eqn:He; [| discriminate].
  cbn [snd]. split; [exact Hrd |]. unfold Decoder.Error. now rewrite He.
Qed.

(** X5. [ReadLobRequest.decode] never returns an error and does not look at
    the request it is called on.  From a stream of at least 24 bytes it
    consumes exactly 24; from a shorter stream it consumes all there is and
    leaves [io.EOF] or [io.ErrUnexpectedEOF] latched in the decoder. *)
Theorem ReadLobRequest_decode_consumes_24
  (r r0 : ReadLobRequest.t) (input : list byte) :
  snd (fst (ReadLobRequest.decode r (Decoder.new input))) = None /\
  ReadLobRequest.decode r (Decoder.new input)
  = ReadLobRequest.decode r0 (Decoder.new input) /\
  ((24 <= length input)%nat ->
   snd (ReadLobRequest.decode r (Decoder.new input))
   = Decoder.mk (skipn 24 input) None) /\
  ((length input < 24)%nat ->
   truncated (snd (ReadLobRequest.decode r (Decoder.new input)))).
Proof.
  split; [| split; [| split]].
  - unfold ReadLobRequest.decode.
    destruct (Decoder.Uint64 _) as [id dec1], (Decoder.Int64 dec1) as [ofs dec2],
      (Decoder.Int32 dec2) as [cs dec3]. reflexivity.
  - reflexivity.
  - intros Hlen. rewrite ReadLobRequest_decode_state. unfold Decoder.new.
    rewrite !readFull_state. cbn [Decoder.rd Decoder.err].
    repeat (settle_tests; cbn [Decoder.rd Decoder.err]; rewrite ?length_skipn).
    now rewrite !skipn_skipn.
  - intros Hlen. rewrite ReadLobRequest_decode_state. unfold Decoder.new.
    assert (Hstep : forall (n : nat) (bs : list byte),
               (n <= length bs)%nat \/ truncated (snd (Decoder.readFull n (Decoder.mk bs None)))).
    { intros n bs. destruct (Nat.le_gt_cases n (length bs)) as [Hle | Hgt]; [now left | right].
      now apply readFull_truncates. }
    destruct (Hstep 8%nat input) as [H8 | Hf];
      [rewrite (readFull_enough 8) by exact H8; cbn [snd]
      | do 3 apply readFull_truncated_stays; exact Hf].
    destruct (Hstep 8%nat (skipn 8 input)) as [H16 | Hf];
      [rewrite (readFull_enough 8) by exact H16; cbn [snd]
      | do 2 apply readFull_truncated_stays; exact Hf].
    destruct (Hstep 4%nat (skipn 8 (skipn 8 input))) as [H20 | Hf];
      [rewrite (readFull_enough 4) by exact H20; cbn [snd]
      | apply readFull_truncated_stays; exact Hf].
    apply readFull_truncates. rewrite !length_skipn in *. lia.
Qed.

Lemma ReadLobRequest_decode_consumes_24_witness :
  truncated (snd (ReadLobRequest.decode ReadLobRequest.zero (Decoder.new abcdefg))).
Proof.
  apply (ReadLobRequest_decode_consumes_24 ReadLobRequest.zero ReadLobRequest.zero abcdefg).
  simpl. lia.
Defined.

Lemma wrap_signed_succ (ofs : Z) :
  is_int64 ofs ->
  wrap_signed 64 (ofs + 1) = if ofs =? 2 ^ 63 - 1 then - 2 ^ 63 else ofs + 1.
Proof.
  intros Hofs. unfold is_int64 in Hofs.
  destruct (Z.eqb_spec ofs (2 ^ 63 - 1)) as [-> | Hne]; [reflexivity |].
  apply wrap_signed_small; lia.
Qed.

(** X6. [ReadLobRequest.encode] is injective on well-formed requests: two
    requests with the same bytes on the wire are the same request. *)
Theorem ReadLobRequest_encode_injective (r1 r2 : ReadLobRequest.t)
  (Hwf1 : wellFormedRequest r1) (Hwf2 : wellFormedRequest r2)
  (Hwire : Encoder.wr (snd (ReadLobRequest.encode r1 Encoder.new))
           = Encoder.wr (snd (ReadLobRequest.encode r2 Encoder.new))) :
  r1 = r2.
Proof.
  destruct Hwf1 as (Hid1 & Hofs1 & Hcs1), Hwf2 as (Hid2 & Hofs2 & Hcs2).
  pose proof (ReadLobRequest_decode_encode r1 ReadLobRequest.zero Hid1 Hcs1) as H1.
  pose proof (ReadLobRequest_decode_encode r2 ReadLobRequest.zero Hid2 Hcs2) as H2.
  rewrite Hwire, H2 in H1. injection H1 as Hid Hofs Hcs.
  destruct r1 as [id1 ofs1 cs1], r2 as [id2 ofs2 cs2].
  cbn [ReadLobRequest.ID ReadLobRequest.Ofs ReadLobRequest.ChunkSize] in *.
  subst id2 cs2. f_equal.
  rewrite !wrap_signed_succ in Hofs by assumption.
  unfold is_int64 in *.
  destruct (Z.eqb_spec ofs1 (2 ^ 63 - 1)), (Z.eqb_spec ofs2 (2 ^ 63 - 1)); lia.
Qed.

Lemma ReadLobRequest_encode_injective_witness :
  ReadLobRequest.mk 7 0 4 = ReadLobRequest.mk 7 0 4.
Proof.
  apply (ReadLobRequest_encode_injective (ReadLobRequest.mk 7 0 4) (ReadLobRequest.mk 7 0 4));
    try reflexivity; unfold wellFormedRequest, is_uint64, is_int64, is_int32; simpl; lia.
Defined.

(** ** Size fields that cannot be a length *)

(** X7. A negative size field makes the decoder panic: in
    [ReadLobReply.decodeNumArg] when the buffer is grown, in
    [WriteLobDescr.decode], and so in [WriteLobRequest.decodeNumArg], when
    the payload slice is made. *)
Theorem negative_size_panics
  (id opt ofs size : Z) (rest : list byte)
  (reply : ReadLobReply.t) (d : WriteLobDescr.t) (r : WriteLobRequest.t)
  (Hsize : - 2 ^ 31 <= size < 0) :
  ReadLobReply.decodeNumArg reply
    (Decoder.new (le_split 8 id ++ le_split 1 opt ++ le_split 4 size ++ rest)) 1
  = Panicked "cannot be negative"
  /\ WriteLobDescr.decode d
       (Decoder.new (le_split 8 id ++ le_split 1 opt ++ le_split 8 ofs
                       ++ le_split 4 size ++ rest))
     = Panicked "makeslice: len out of range"
  /\ WriteLobRequest.decodeNumArg r
       (Decoder.new (le_split 8 id ++ le_split 1 opt ++ le_split 8 ofs
                       ++ le_split 4 size ++ rest)) 1
     = Panicked "makeslice: len out of range".
Proof.
  assert (Hdescr : forall d0,
             WriteLobDescr.decode d0
               (Decoder.new (le_split 8 id ++ le_split 1 opt ++ le_split 8 ofs
                               ++ le_split 4 size ++ rest))
             = Panicked "makeslice: len out of range").
  { intros d0.
    unfold WriteLobDescr.decode, Decoder.new, Decoder.Uint64, Decoder.Int8, Decoder.Int64.
    rewrite get_unsigned_split, !get_signed_split, Int32_split by (unfold is_int32; lia).
    now settle_tests. }
  split; [| split].
  - unfold ReadLobReply.decodeNumArg, Decoder.new, Decoder.Uint64, Decoder.Int8.
    cbn [Z.eqb Pos.eqb negb].
    rewrite get_unsigned_split, get_signed_split, Int32_split by (unfold is_int32; lia).
    unfold ReadLobReply.growTo. now settle_tests.
  - apply Hdescr.
  - unfold WriteLobRequest.decodeNumArg.
    change (1 <? 0) with false. change (Z.to_nat 1) with 1%nat.
    cbn [WriteLobRequest.decodeLoop]. now rewrite Hdescr.
Qed.

Lemma negative_size_panics_witness :
  ReadLobReply.decodeNumArg ReadLobReply.zero
    (Decoder.new (le_split 8 7 ++ le_split 1 2 ++ le_split 4 (-1) ++ abcde)) 1
  = Panicked "cannot be negative".
Proof.
  apply (negative_size_panics 7 2 0 (-1) abcde ReadLobReply.zero
           WriteLobDescr.zero WriteLobRequest.zero).
  lia.
Defined.

(** ** Read-LOB reply on a stream that ends too early *)




(** ** The registry, read from the result *)

Lemma mapLookup_In {V : Type} (m : list (PartKind * V)) (k : PartKind) (v : V) :
  mapLookup m k = Some v -> In (k, v) m.
Proof.
  induction m as [| [k' v'] m IH]; simpl; [discriminate |].
  destruct (PartKind_eq_dec k k') as [-> | Hne].
  - intros H. injection H as ->. now left.
  - intros H. right. now apply IH.
Qed.

Lemma genPartTypeMap_lookup (k : PartKind) (pt : PartType) :
  In (k, pt) genPartTypeMap -> mapLookup genPartTypeMap k = Some pt.
Proof.
  intros Hin. simpl in Hin.
  repeat (destruct Hin as [Hin | Hin]; [injection Hin as <- <-; reflexivity |]).
  contradiction.
Qed.

(** X9. [newGenPartReader] never panics.  When it returns a part, the kind
    is not the authentication kind, the part is the zero value of the one
    type the table has for the kind, and, for every type whose [kind]
    method is in parts.go, that method gives back the kind that was asked
    for. *)
Theorem newGenPartReader_sound (k : PartKind) (p : Part) :
  (forall msg, newGenPartReader k <> Panicked msg) /\
  (newGenPartReader k = Returned (Some p) ->
   k <> PkAuthentication /\
   In (k, typeOf p) genPartTypeMap /\
   p = reflect_New (typeOf p) /\
   (forall pt, In (k, pt) genPartTypeMap -> pt = typeOf p) /\
   (kind (typeOf p) = Some k \/ exists o, typeOf p = Options o)).
Proof.
  unfold newGenPartReader. split.
  - intros msg. destruct (PartKind_eq_dec k PkAuthentication); [discriminate |].
    destruct (mapLookup genPartTypeMap k); discriminate.
  - destruct (PartKind_eq_dec k PkAuthentication) as [Heq | Hne]; [discriminate |].
    destruct (mapLookup genPartTypeMap k) as [pt |] eqn:Hlook; [| discriminate].
    cbn [implementsPart]. intros H. injection H as <-.
    assert (Htype : typeOf (reflect_New pt) = pt) by (destruct pt; reflexivity).
    rewrite Htype. repeat split; try assumption.
    + now apply mapLookup_In.
    + intros pt' Hin. apply genPartTypeMap_lookup in Hin. congruence.
    + apply mapLookup_In in Hlook. simpl in Hlook.
      repeat (destruct Hlook as [Hlook | Hlook];
              [injection Hlook as <- <-; first [now left | right; eexists; reflexivity] |]).
      contradiction.
Qed.

Lemma newGenPartReader_sound_witness :
  kind (typeOf (PWriteLobReply WriteLobReply.zero)) = Some PkWriteLobReply
  \/ exists o, typeOf (PWriteLobReply WriteLobReply.zero) = Options o.
Proof.
  apply (proj2 (newGenPartReader_sound PkWriteLobReply (PWriteLobReply WriteLobReply.zero))).
  reflexivity.
Defined.

(** ** The last write error *)

Lemma handleAll_fields (errs : list (option error)) (w : writer.t) :
  writer.protTrace (handleAll errs w) = writer.protTrace w /\
  writer.sv (handleAll errs w) = writer.sv w /\
  writer.svSent (handleAll errs w) = writer.svSent w /\
  writer.LastWriteErr (handleAll errs w) = lastFailure errs (writer.LastWriteErr w).
Proof.
  revert w. induction errs as [| err errs IH]; intros w; [now repeat split |].
  change (handleAll (err :: errs) w)
    with (handleAll errs (fst (writer.lastErrorHandler err w))).
  destruct (IH (fst (writer.lastErrorHandler err w))) as (H1 & H2 & H3 & H4).
  rewrite H1, H2, H3, H4. cbn [lastFailure]. now destruct err.
Qed.

(** X10. [lastErrorHandler] hands its argument back unchanged.  After any
    run of results went through it, [LastWriteErr] is the most recent
    error among them, and what it was before when there was none: a
    success never clears the error on record.  The other fields of the
    writer stay as they were. *)
Theorem writer_last_error (errs : list (option error)) (w : writer.t) :
  (forall err, snd (writer.lastErrorHandler err w) = err) /\
  writer.LastWriteErr (handleAll errs w) = lastFailure errs (writer.LastWriteErr w) /\
  (forall e, writer.LastWriteErr w = Some e ->
             writer.LastWriteErr (handleAll errs w) <> None) /\
  (forall e before after,
      errs = before ++ Some e :: after -> Forall (eq None) after ->
      writer.LastWriteErr (handleAll errs w) = Some e) /\
  writer.protTrace (handleAll errs w) = writer.protTrace w /\
  writer.sv (handleAll errs w) = writer.sv w /\
  writer.svSent (handleAll errs w) = writer.svSent w.
Proof.
  destruct (handleAll_fields errs w) as (H1 & H2 & H3 & H4).
  assert (Hkeep : forall l e, exists e', lastFailure l (Some e) = Some e').
  { induction l as [| [x |] l IHl]; intros e; cbn [lastFailure]; eauto. }
  assert (Hnone : forall l dflt, Forall (eq None) l -> lastFailure l dflt = dflt).
  { induction l as [| x l IHl]; intros dflt Hall; [reflexivity |].
    inversion Hall as [| ? ? <- Hl]; subst. cbn [lastFailure]. now apply IHl. }
  assert (Happ : forall l1 l2 dflt,
             lastFailure (l1 ++ l2) dflt = lastFailure l2 (lastFailure l1 dflt)).
  { induction l1 as [| x l1 IHl]; intros l2 dflt; [reflexivity |].
    cbn [app lastFailure]. apply IHl. }
  repeat split; try assumption.
  - intros err. now destruct err.
  - intros e He. rewrite H4, He. destruct (Hkeep errs e) as [e' ->]. discriminate.
  - intros e before after -> Hafter. rewrite H4, Happ. cbn [lastFailure].
    now apply Hnone.
Qed.

Lemma writer_last_error_witness :
  writer.LastWriteErr
    (handleAll [Some EOF; None; Some (ErrOther "broken pipe"); None]
       (writer.mk false [] false None))
  = Some (ErrOther "broken pipe").
Proof.
  apply (proj1 (proj2 (proj2 (proj2
           (writer_last_error
              [Some EOF; None; Some (ErrOther "broken pipe"); None]
              (writer.mk false [] false None)))))
           (ErrOther "broken pipe") [Some EOF; None] [None]).
  - reflexivity.
  - repeat constructor.
Defined.

(** ** [FetchNext] at the edges *)

Lemma copyLimited_zero (src : Reader) : copyLimited src 0 = ([], src, None).
Proof. now destruct src. Qed.

Lemma FetchNext_no_room (chunkSize : Z) (d : LobInDescr.t) :
  chunkSize <= 0 ->
  LobInDescr.FetchNext chunkSize d
  = (LobInDescr.mk (LobInDescr.rd d) loDataincluded (LobInDescr.pos d) [], None).
Proof.
  intros Hc. unfold LobInDescr.FetchNext, CopyN.
  cbn [LobInDescr.rd LobInDescr.Opt LobInDescr.pos LobInDescr.buf app].
  replace (Z.to_nat chunkSize) with 0%nat by lia.
  rewrite copyLimited_zero. cbn [length Z.of_nat].
  destruct (Z.eqb_spec 0 chunkSize) as [Heq | Hne]; [reflexivity |].
  now settle_tests.
Qed.

(** X11. With a chunk size of zero or less [FetchNext] reads nothing,
    leaves the source as it is and reports success without last-data, also
    on a source that is used up: the chunk loop never comes to its end,
    whatever the number of rounds. *)
Theorem FetchNext_nonpositive_chunk_never_ends
  (chunkSize : Z) (d : LobInDescr.t) (fuel : nat) (Hc : chunkSize <= 0) :
  LobInDescr.FetchNext chunkSize d
  = (LobInDescr.mk (LobInDescr.rd d) loDataincluded (LobInDescr.pos d) [], None)
  /\ fetchAll fuel chunkSize d = (repeat ([], loDataincluded) fuel, OutOfFuel).
Proof.
  split; [now apply FetchNext_no_room |].
  revert d. induction fuel as [| fuel IH]; intros d; [reflexivity |].
  cbn [fetchAll]. rewrite FetchNext_no_room by exact Hc.
  cbn [LobInDescr.buf LobInDescr.Opt].
  change (IsLastData loDataincluded) with false. cbv iota.
  now rewrite IH.
Qed.

Lemma FetchNext_nonpositive_chunk_never_ends_witness :
  fetchAll 4 0 (LobInDescr.newLobInDescr []) = (repeat ([], loDataincluded) 4, OutOfFuel).
Proof.
  apply (FetchNext_nonpositive_chunk_never_ends 0 (LobInDescr.newLobInDescr []) 4).
  lia.
Defined.

(** X12. A source that breaks off with [io.ErrUnexpectedEOF], or with an
    error that wraps it or [io.EOF], before [chunkSize] bytes were read is
    taken to be complete: [FetchNext] reports success, with last-data set
    and the bytes read so far in the buffer, and the error is dropped. *)
Theorem FetchNext_truncated_source_is_complete
  (chunkSize : Z) (d : LobInDescr.t)
  (runs : list (list byte)) (e : error) (rest : Reader)
  (Hrd : LobInDescr.rd d = dataSource runs ++ Fail e :: rest)
  (Hlen : Z.of_nat (length (concat runs)) < chunkSize)
  (Hend : endOfInput (Some e) = true) :
  LobInDescr.FetchNext chunkSize d
  = (LobInDescr.mk rest (Z.lor loDataincluded loLastdata) (LobInDescr.pos d)
       (concat runs),
     None).
Proof.
  unfold LobInDescr.FetchNext, CopyN.
  cbn [LobInDescr.rd LobInDescr.Opt LobInDescr.pos LobInDescr.buf app].
  rewrite Hrd, copyLimited_data_then by lia.
  destruct (Z.to_nat chunkSize - length (concat runs))%nat as [| k] eqn:Hk; [lia |].
  cbn [copyLimited]. unfold endOfInput in Hend.
  destruct (error_eqb e EOF); rewrite app_nil_r; settle_tests; cbn [andb].
  - reflexivity.
  - destruct (errors_Is (Some e) EOF), (errors_Is (Some e) ErrUnexpectedEOF);
      try discriminate; reflexivity.
Qed.

Lemma FetchNext_truncated_source_is_complete_witness :
  LobInDescr.FetchNext 5
    (LobInDescr.newLobInDescr
       [Data fg; Fail (ErrWrap "read lob" ErrUnexpectedEOF); Data abcde])
  = (LobInDescr.mk [Data abcde] (Z.lor loDataincluded loLastdata) 0 fg, None).
Proof.
  apply (FetchNext_truncated_source_is_complete 5
           (LobInDescr.newLobInDescr
              [Data fg; Fail (ErrWrap "read lob" ErrUnexpectedEOF); Data abcde])
           [fg] (ErrWrap "read lob" ErrUnexpectedEOF) [Data abcde]);
    [reflexivity | simpl; lia | reflexivity].
Defined.

Lemma copyLimited_full_chunk (runs : list (list byte)) (tail : Reader) (n : nat) :
  (n <= length (concat runs))%nat ->
  exists runs',
    copyLimited (dataSource runs ++ tail) n
    = (firstn n (concat runs), dataSource runs' ++ tail, None)
    /\ concat runs' = skipn n (concat runs).
Proof.
  revert n. induction runs as [| bs runs IH]; intros [| n] Hn.
  - exists []. split; [apply copyLimited_zero | reflexivity].
  - simpl in Hn. lia.
  - exists (bs :: runs). split; [apply copyLimited_zero | reflexivity].
  - cbn [concat] in Hn. rewrite length_app in Hn.
    cbn [dataSource map app copyLimited concat]. fold (dataSource runs).
    destruct (Nat.leb_spec (length bs) (S n)) as [Hle | Hgt].
    + destruct (IH (S n - length bs)%nat) as (runs' & Heq & Hcat); [lia |].
      rewrite Heq. exists runs'. split.
      * now rewrite firstn_app, (firstn_all2 (n:=S n) bs) by lia.
      * rewrite Hcat, skipn_app, (skipn_all2 (n:=S n) bs) by lia. reflexivity.
    + exists (skipn (S n) bs :: runs). split.
      * rewrite firstn_app.
        replace (S n - length bs)%nat with 0%nat by lia.
        now rewrite firstn_O, app_nil_r.
      * cbn [concat]. rewrite skipn_app.
        replace (S n - length bs)%nat with 0%nat by lia. reflexivity.
Qed.

(** X13. When the source has at least [chunkSize] bytes before whatever
    comes next, [FetchNext] takes exactly [chunkSize] bytes, does not set
    last-data and does not touch what comes next: an end or an error of
    the source right after the chunk is only seen by the next call. *)
Theorem FetchNext_full_chunk_defers_the_end
  (c : nat) (d : LobInDescr.t) (runs : list (list byte)) (tail : Reader)
  (Hc : (0 < c)%nat)
  (Hrd : LobInDescr.rd d = dataSource runs ++ tail)
  (Hlen : (c <= length (concat runs))%nat) :
  exists runs',
    LobInDescr.FetchNext (Z.of_nat c) d
    = (LobInDescr.mk (dataSource runs' ++ tail) loDataincluded (LobInDescr.pos d)
         (firstn c (concat runs)),
       None)
    /\ concat runs' = skipn c (concat runs).
Proof.
  destruct (copyLimited_full_chunk runs tail c Hlen) as (runs' & Hcopy & Hcat).
  exists runs'. split; [| exact Hcat].
  unfold LobInDescr.FetchNext, CopyN.
  cbn [LobInDescr.rd LobInDescr.Opt LobInDescr.pos LobInDescr.buf app].
  rewrite Hrd, Nat2Z.id, Hcopy, length_firstn.
  settle_tests. reflexivity.
Qed.

Lemma FetchNext_full_chunk_defers_the_end_witness :
  exists runs',
    LobInDescr.FetchNext (Z.of_nat 5)
      (LobInDescr.newLobInDescr [Data abcde; Fail (ErrOther "connection reset")])
    = (LobInDescr.mk (dataSource runs' ++ [Fail (ErrOther "connection reset")])
         loDataincluded 0 (firstn 5 (concat [abcde])),
       None)
    /\ concat runs' = skipn 5 (concat [abcde]).
Proof.
  apply (FetchNext_full_chunk_defers_the_end 5
           (LobInDescr.newLobInDescr [Data abcde; Fail (ErrOther "connection reset")])
           [abcde] [Fail (ErrOther "connection reset")]);
    [lia | reflexivity | simpl; lia].
Defined.

(** ** From the fetched chunk to the wire *)

Lemma FetchNext_buffer_bound (chunkSize : Z) (d : LobInDescr.t) :
  Z.of_nat (length (LobInDescr.buf (fst (LobInDescr.FetchNext chunkSize d))))
  <= Z.max 0 chunkSize.
Proof.
  unfold LobInDescr.FetchNext.
  cbn [LobInDescr.rd LobInDescr.Opt LobInDescr.pos LobInDescr.buf app].
  pose proof (CopyN_out (LobInDescr.rd d) chunkSize) as Hout.
  destruct (CopyN (LobInDescr.rd d) chunkSize) as [[out rd'] err]. cbn [fst] in Hout.
  assert (Z.of_nat (length out) <= Z.max 0 chunkSize)
    by (rewrite Hout, length_firstn; lia).
  now destruct (negb (errors_Is err EOF) && negb (errors_Is err ErrUnexpectedEOF)).
Qed.

(** X14. Whatever the outcome of [FetchNext], the staged chunk is never
    longer than the chunk size, [size] is its length, and [writeFirst]
    writes exactly these [size] bytes. *)
Theorem LobInDescr_first_chunk_size (chunkSize : Z) (d : LobInDescr.t) (out : list byte) :
  let d' := fst (LobInDescr.FetchNext chunkSize d) in
  0 <= LobInDescr.size d' <= Z.max 0 chunkSize /\
  LobInDescr.writeFirst d' (Encoder.mk out None)
  = Encoder.mk (out ++ LobInDescr.buf d') None /\
  Z.of_nat (length (Encoder.wr (LobInDescr.writeFirst d' (Encoder.mk out None))))
  = Z.of_nat (length out) + LobInDescr.size d'.
Proof.
  intros d'. subst d'. pose proof (FetchNext_buffer_bound chunkSize d) as Hb.
  unfold LobInDescr.size, LobInDescr.writeFirst, Encoder.Bytes.
  rewrite write_ok. cbn [Encoder.wr]. rewrite length_app.
  split; [lia | split; [reflexivity | lia]].
Qed.

(** X15. After a [WriteLobDescr.FetchNext] that succeeds, the descriptor
    takes at most 21 bytes plus the chunk size in a write-LOB request, and
    its encoding is the locator id it had, the options byte, eight bytes
    0xff for the offset -1, the payload length and the payload. *)
Theorem fetched_chunk_on_the_wire
  (chunkSize : Z) (w w' : WriteLobDescr.t) (out : list byte)
  (Hfetch : WriteLobDescr.FetchNext chunkSize w = Returned (w', None)) :
  WriteLobRequest.size (WriteLobRequest.mk [w']) <= 21 + Z.max 0 chunkSize /\
  (WriteLobDescr.Opt w' = loDataincluded \/
   WriteLobDescr.Opt w' = Z.lor loDataincluded loLastdata) /\
  WriteLobRequest.encode (WriteLobRequest.mk [w']) (Encoder.mk out None)
  = (None,
     Encoder.mk
       (out ++ le_split 8 (WriteLobDescr.ID w) ++ le_split 1 (WriteLobDescr.Opt w')
            ++ repeat Byte.xff 8
            ++ le_split 4 (Z.of_nat (length (WriteLobDescr.b w')))
            ++ WriteLobDescr.b w')
       None).
Proof.
  unfold WriteLobDescr.FetchNext in Hfetch.
  destruct (WriteLobDescr.LobInDescr w) as [inner |]; [| discriminate].
  pose proof (FetchNext_buffer_bound chunkSize inner) as Hbound.
  assert (Hopt : snd (LobInDescr.FetchNext chunkSize inner) = None ->
                 LobInDescr.Opt (fst (LobInDescr.FetchNext chunkSize inner)) = loDataincluded
                 \/ LobInDescr.Opt (fst (LobInDescr.FetchNext chunkSize inner))
                    = Z.lor loDataincluded loLastdata).
  { unfold LobInDescr.FetchNext.
    destruct (CopyN _ chunkSize) as [[o rd'] err].
    destruct (negb (errors_Is err EOF) && negb (errors_Is err ErrUnexpectedEOF));
      cbn; auto. }
  destruct (LobInDescr.FetchNext chunkSize inner) as [inner' [e |]]; [discriminate |].
  injection Hfetch as <-. cbn [fst snd] in *.
  split; [| split].
  - unfold WriteLobRequest.size. rewrite WriteLobRequest_size_from.
    unfold descrSizes. cbn [WriteLobRequest.Descrs map fold_right WriteLobDescr.b].
    lia.
  - cbn [WriteLobDescr.Opt]. now apply Hopt.
  - unfold WriteLobRequest.encode. cbn [WriteLobRequest.Descrs WriteLobRequest.encodeLoop].
    rewrite WriteLobDescr_encode_ok. reflexivity.
Qed.

Lemma fetched_chunk_on_the_wire_witness :
  WriteLobRequest.size
    (WriteLobRequest.mk
       [WriteLobDescr.mk (Some (LobInDescr.mk [Data fg] loDataincluded 0 abcde))
          9 loDataincluded (-1) abcde])
  <= 21 + Z.max 0 5.
Proof.
  apply (fetched_chunk_on_the_wire 5
           (WriteLobDescr.mk (Some (LobInDescr.newLobInDescr [Data abcdefg])) 9 0 0 [])
           (WriteLobDescr.mk (Some (LobInDescr.mk [Data fg] loDataincluded 0 abcde))
              9 loDataincluded (-1) abcde)
           []).
  reflexivity.
Defined.

(** ** The text of an option set *)





